(** * ServiceEnumerator (scapy.contrib.automotive.scanner.enumerator)

    A shallow embedding of the enumeration engine of
    [src/scapy/contrib/automotive/scanner/enumerator.py]: the result store
    with its packet interning, the per-state request stream (retry slot
    chained with the memoised initial-request iterator), the [execute] loop
    with its response evaluation, the statistics, the adaptive blacklist of
    negative response codes, the views of the result store with the
    [completed] property, and the discovery of state-changing edges with
    their transition functions.

    Conventions of the embedding.
    - Python dictionaries whose iteration order is observed
      ([__result_packets], [_state_completed], the local [nrc_dict]) are
      insertion-ordered association lists ([dict_get], [dict_set]);
      dictionaries that are only looked up and updated ([_retry_pkt],
      [_request_iterators], [_edge_requests]) are finite maps of stdpp.
    - [bytes(pkt)] is a list of bytes; integers are in [Z], counts in [nat].
    - Timestamps and durations (Python floats or EDecimal) are idealised as
      exact rationals; the comparison of the blacklist, a quotient of two
      counts against 0.3, is taken exactly as well.
    - Keyword options are a record of optional values; [kwargs.pop(k, d)]
      reads the option with default [d].
    - The interpreter is Python 3: [/] on integers is true division. *)

From Stdlib Require Import QArith.
From Stdlib.Strings Require Import Byte.
From stdpp Require Import gmap list strings pretty.

Local Open Scope Z_scope.

#[global] Instance byte_eq_dec : EqDecision byte := Byte.byte_eq_dec.

(** ** Packets, scan results, options *)

(** The exception classes that matter to [execute]: its [except] clause
    catches [OSError], [ValueError] and [Scapy_Exception]; anything else
    ([OtherException]) passes through it. [KeyError] is what a failed
    dictionary subscript raises. *)
Inductive Exn : Type :=
  | OSError
  | ValueError
  | Scapy_Exception
  | KeyError
  | OtherException.

(** A packet object as far as the enumerator looks at it. [pkt_id] stands
    for the identity of the Python object, [raw] for [bytes(pkt)]. *)
Record Packet : Type := mkPacket {
  pkt_id : nat;
  raw : list byte;
  service : Z;
  sent_time : option Q;
  time : Q
}.

(** Modelled from the spec: the truth value of a packet object
    ([Packet.__bool__] lives in scapy/packet.py, not part of the sources at
    hand). The spec knows a response only as present or absent, so every
    packet object counts as true and [if res] is [res is not None]. *)
Definition packet_truth (p : Packet) : bool := true.

(** [x or 0.0] on an optional float. *)
Definition or_zero (t : option Q) : Q :=
  match t with
  | Some x => if Qeq_bool x 0 then 0%Q else x
  | None => 0%Q
  end.

(** ** Insertion-ordered dictionaries *)

Section pydict.
Context {K V : Type} `{EqDecision K}.

Fixpoint dict_get (k : K) (d : list (K * V)) : option V :=
  match d with
  | [] => None
  | (k', v) :: d' => if decide (k = k') then Some v else dict_get k d'
  end.

Definition dict_contains (k : K) (d : list (K * V)) : bool :=
  match dict_get k d with Some _ => true | None => false end.

(** [d[k] = v]: overwrite in place, or append a new key at the end. *)
Fixpoint dict_set (k : K) (v : V) (d : list (K * V)) : list (K * V) :=
  match d with
  | [] => [(k, v)]
  | (k', v') :: d' =>
      if decide (k = k') then (k, v) :: d' else (k', v') :: dict_set k v d'
  end.

Definition dict_keys (d : list (K * V)) : list K := d.*1.

End pydict.

(** The record of one exchange ([_AutomotiveTestCaseScanResult]). *)
Record ScanResult (EcuState : Type) : Type := mkScanResult {
  state : EcuState;
  req : Packet;
  resp : option Packet;
  req_ts : Q;
  resp_ts : option Q
}.
Arguments mkScanResult {_} _ _ _ _ _.
Arguments state {_} _.
Arguments req {_} _.
Arguments resp {_} _.
Arguments req_ts {_} _.
Arguments resp_ts {_} _.

(** The keyword options of [execute]; [None] is an absent key. *)
Record Kwargs : Type := mkKwargs {
  kw_timeout : option Q;
  kw_execution_time : option Q;
  kw_exit_if_no_answer_received : option bool;
  kw_exit_if_service_not_supported : option bool;
  kw_retry_if_busy_returncode : option bool;
  kw_exit_scan_on_first_negative_response : option bool
}.

Definition no_kwargs : Kwargs := mkKwargs None None None None None None.

(** What is left of the options once [execute] has popped ['timeout'] and
    ['execution_time']. *)
Definition kwargs_rest (kw : Kwargs) : Kwargs :=
  mkKwargs None None
    (kw_exit_if_no_answer_received kw)
    (kw_exit_if_service_not_supported kw)
    (kw_retry_if_busy_returncode kw)
    (kw_exit_scan_on_first_negative_response kw).

(** An iterator over the initial requests: the sequence the generator
    produces ([None] from its end on) and the position of the next item. *)
Record RequestIterator : Type := mkIterator {
  it_gen : nat → option Packet;
  it_pos : nat
}.

(** [iter(...)] of a fresh iterable. *)
Definition iter (g : nat → option Packet) : RequestIterator := mkIterator g 0.

(** [next(it)]: the item and the advanced iterator; an exhausted iterator
    stays where it is. *)
Definition iter_next (it : RequestIterator) : option (Packet * RequestIterator) :=
  match it_gen it (it_pos it) with
  | Some p => Some (p, mkIterator (it_gen it) (S (it_pos it)))
  | None => None
  end.

(** A non-empty retry slot: a single packet, or a sequence of packets (a
    list, which a later call can go through again). *)
Inductive RetryEntry : Type :=
  | RetryPacket (p : Packet)
  | RetryIterable (l : list Packet).

(** ** The collaborators *)

(** The device-state model ([EcuState] of scapy.contrib.automotive.ecu). *)
Class EcuStateOps : Type := {
  EcuState : Type;
  EcuState_eq_dec :: EqDecision EcuState;
  EcuState_countable :: Countable EcuState;
  is_modifier_pkt : Packet → bool;
  get_modified_ecu_state : Packet → Packet → EcuState → EcuState;
  state_repr : EcuState → string
}.

(** The abstract methods a concrete enumerator supplies. *)
Class EnumeratorOps : Type := {
  _get_negative_response_code : Packet → Z;
  _get_initial_requests : Kwargs → nat → option Packet
}.

(** The transport and the clock. A value of [World] is the state of
    everything outside the enumerator: [sr1] sends one request and waits for
    at most one response or raises, [closed] reads the socket's flag and
    [time_time] reads the clock. *)
Class Transport : Type := {
  World : Type;
  sr1 : World → Packet → Q → World * (Exn + option Packet);
  closed : World → bool;
  time_time : World → World * Q
}.

(** [str(round(x, 5))] on a float. *)
Class FloatFormat : Type := {
  str_round5 : Q → string
}.

(** ** The enumerator object *)

Section enumerator.
Context `{EcuStateOps}.

Record ServiceEnumerator : Type := mkEnumerator {
  __result_packets : list (list byte * Packet);
  _results : list (ScanResult EcuState);
  _request_iterators : gmap EcuState RequestIterator;
  _retry_pkt : gmap EcuState (option RetryEntry);
  _negative_response_blacklist : list Z;
  _state_completed : list (EcuState * bool);
  _edge_requests : gmap (EcuState * EcuState) Packet
}.

(** [__init__] of [StateGeneratingServiceEnumerator]. *)
Definition __init__ : ServiceEnumerator :=
  mkEnumerator [] [] ∅ ∅ [0x10; 0x11] [] ∅.

Definition set_result_packets (t : list (list byte * Packet))
    (self : ServiceEnumerator) : ServiceEnumerator :=
  mkEnumerator t (_results self) (_request_iterators self) (_retry_pkt self)
    (_negative_response_blacklist self) (_state_completed self)
    (_edge_requests self).

Definition set_results (r : list (ScanResult EcuState))
    (self : ServiceEnumerator) : ServiceEnumerator :=
  mkEnumerator (__result_packets self) r (_request_iterators self)
    (_retry_pkt self) (_negative_response_blacklist self)
    (_state_completed self) (_edge_requests self).

Definition set_request_iterators (m : gmap EcuState RequestIterator)
    (self : ServiceEnumerator) : ServiceEnumerator :=
  mkEnumerator (__result_packets self) (_results self) m (_retry_pkt self)
    (_negative_response_blacklist self) (_state_completed self)
    (_edge_requests self).

Definition set_retry_pkt (m : gmap EcuState (option RetryEntry))
    (self : ServiceEnumerator) : ServiceEnumerator :=
  mkEnumerator (__result_packets self) (_results self)
    (_request_iterators self) m (_negative_response_blacklist self)
    (_state_completed self) (_edge_requests self).

Definition set_negative_response_blacklist (b : list Z)
    (self : ServiceEnumerator) : ServiceEnumerator :=
  mkEnumerator (__result_packets self) (_results self)
    (_request_iterators self) (_retry_pkt self) b (_state_completed self)
    (_edge_requests self).

Definition set_state_completed (c : list (EcuState * bool))
    (self : ServiceEnumerator) : ServiceEnumerator :=
  mkEnumerator (__result_packets self) (_results self)
    (_request_iterators self) (_retry_pkt self)
    (_negative_response_blacklist self) c (_edge_requests self).

Definition set_edge_requests (e : gmap (EcuState * EcuState) Packet)
    (self : ServiceEnumerator) : ServiceEnumerator :=
  mkEnumerator (__result_packets self) (_results self)
    (_request_iterators self) (_retry_pkt self)
    (_negative_response_blacklist self) (_state_completed self) e.

(** [_retry_pkt] is a [defaultdict(lambda: None)]: reading a missing key
    gives [None] and leaves the key behind with that value. *)
Definition retry_slot (self : ServiceEnumerator) (s : EcuState)
    : option RetryEntry :=
  default None (_retry_pkt self !! s).

Definition retry_touch (s : EcuState) (self : ServiceEnumerator)
    : ServiceEnumerator :=
  match _retry_pkt self !! s with
  | Some _ => self
  | None => set_retry_pkt (<[s := None]> (_retry_pkt self)) self
  end.

(** [self._retry_pkt[state] = v] *)
Definition retry_assign (s : EcuState) (v : option RetryEntry)
    (self : ServiceEnumerator) : ServiceEnumerator :=
  set_retry_pkt (<[s := v]> (_retry_pkt self)) self.

(** [_state_completed] comes from the base class [AutomotiveTestCase];
    [has_completed] reads it, a missing state counting as not completed. *)
Definition has_completed (self : ServiceEnumerator) (s : EcuState) : bool :=
  default false (dict_get s (_state_completed self)).

(** ** Result store *)

Definition _store_result (self : ServiceEnumerator) (st : EcuState)
    (rq : Packet) (res : option Packet) : option ServiceEnumerator :=
  let t0 := __result_packets self in
  let t1 :=
    if negb (dict_contains (raw rq) t0) then dict_set (raw rq) rq t0
    else t0 in
  let t2 :=
    match res with
    | Some r =>
        if packet_truth r && negb (dict_contains (raw r) t1)
        then dict_set (raw r) r t1 else t1
    | None => t1
    end in
  rq_c ← dict_get (raw rq) t2;
  res_c ← match res with
          | Some r => Some <$> dict_get (raw r) t2
          | None => Some None
          end;
  Some (set_results
          (_results self ++
             [mkScanResult st rq_c res_c (or_zero (sent_time rq))
                (time <$> res)])
          (set_result_packets t2 self)).

(** ** Derived views *)

Definition is_negative (p : Packet) : bool := bool_decide (service p = 0x7f).

(** [r.resp and r.resp.service == 0x7f] *)
Definition has_negative_response (r : ScanResult EcuState) : bool :=
  match resp r with
  | Some p => packet_truth p && is_negative p
  | None => false
  end.

Definition results_with_negative_response (self : ServiceEnumerator)
    : list (ScanResult EcuState) :=
  filter (λ r, has_negative_response r) (_results self).
End enumerator.

(** [x < y] on rationals, as a boolean. *)
Definition Qltb (x y : Q) : bool := negb (Qle_bool y x).

(** How a call of [execute] ends: by the exception it lets through, or at
    one of its four ways to return. *)
Inductive Exit : Type :=
  | Raised (e : Exn)
  | SocketClosed
  | StoppedByEvaluation
  | TimeExceeded
  | IteratorFinished.

(** The [except (OSError, ValueError, Scapy_Exception)] clause. *)
Definition caught (e : Exn) : bool :=
  match e with
  | OSError | ValueError | Scapy_Exception => true
  | KeyError | OtherException => false
  end.

Section execution.
Context `{EcuStateOps} `{EnumeratorOps} `{Transport}.

(** ** Request stream *)

Definition __get_retry_iterator (self : ServiceEnumerator) (st : EcuState)
    : ServiceEnumerator * list Packet :=
  let retry_entry := retry_slot self st in
  let self := retry_touch st self in
  match retry_entry with
  | None => (self, [])
  | Some (RetryPacket p) => (self, [p])
  | Some (RetryIterable l) => (self, l)
  end.

(** The iterator itself stays in [_request_iterators]; the caller holds
    a reference to it, which here is the key [st]. *)
Definition __get_initial_request_iterator (self : ServiceEnumerator)
    (st : EcuState) (kw : Kwargs) : ServiceEnumerator :=
  match _request_iterators self !! st with
  | Some _ => self
  | None =>
      set_request_iterators
        (<[st := iter (_get_initial_requests kw)]> (_request_iterators self))
        self
  end.

(** [itertools.chain(retry, initial)]: the retry items not yet yielded,
    and the state whose registered iterator comes after them. *)
Record Chain : Type := mkChain {
  chain_retry : list Packet;
  chain_initial : EcuState
}.

Definition __get_request_iterator (self : ServiceEnumerator) (st : EcuState)
    (kw : Kwargs) : ServiceEnumerator * Chain :=
  let '(self, retry) := __get_retry_iterator self st in
  let self := __get_initial_request_iterator self st kw in
  (self, mkChain retry st).

(** [next] on the chain. Drawing from the second part advances the
    iterator registered for the state, which every other holder of that
    iterator sees. *)
Definition chain_next (self : ServiceEnumerator) (c : Chain)
    : option (Packet * ServiceEnumerator * Chain) :=
  match chain_retry c with
  | p :: rest => Some (p, self, mkChain rest (chain_initial c))
  | [] =>
      it ← _request_iterators self !! chain_initial c;
      '(p, it') ← iter_next it;
      Some (p,
            set_request_iterators
              (<[chain_initial c := it']> (_request_iterators self)) self,
            c)
  end.

(** ** Response evaluation *)

Definition _evaluate_response (self : ServiceEnumerator) (st : EcuState)
    (request : Packet) (response : option Packet) (kw : Kwargs)
    : ServiceEnumerator * bool :=
  match response with
  | None => (self, default false (kw_exit_if_no_answer_received kw))
  | Some response =>
      let exit_if_service_not_supported :=
        default false (kw_exit_if_service_not_supported kw) in
      let retry_if_busy_returncode :=
        default true (kw_retry_if_busy_returncode kw) in
      let exit_scan_on_first_negative_response :=
        default false (kw_exit_scan_on_first_negative_response kw) in
      if exit_scan_on_first_negative_response && is_negative response
      then (self, true)
      else if exit_if_service_not_supported && is_negative response
              && bool_decide
                   (_get_negative_response_code response ∈ [0x11; 0x7f])
      then (set_state_completed
              (dict_set st true (_state_completed self)) self, true)
      else if retry_if_busy_returncode && is_negative response
              && bool_decide (_get_negative_response_code response = 0x21)
      then
        match retry_slot self st with
        | None =>
            (retry_assign st (Some (RetryPacket request))
               (retry_touch st self), true)
        | Some _ => (retry_assign st None (retry_touch st self), false)
        end
      else
        let self := retry_assign st None self in
        if is_modifier_pkt response
           && bool_decide
                (st ≠ get_modified_ecu_state response request st)
        then (self, true)
        else (self, false)
  end.

(** ** The execution loop *)

(** One round of the [for] loop of [execute], from the call of [sr1] on:
    go on with the next request, or leave. *)
Inductive Round : Type :=
  | Next (self : ServiceEnumerator) (w : World)
  | Leave (self : ServiceEnumerator) (w : World) (e : Exit).

Definition execute_round (self : ServiceEnumerator) (w : World)
    (st : EcuState) (rq : Packet) (timeout execution_time start_time : Q)
    (kw : Kwargs) : Round :=
  let '(w, r) := sr1 w rq timeout in
  match r with
  | inl e =>
      if caught e then
        match retry_slot self st with
        | None =>
            Leave (retry_assign st (Some (RetryPacket rq))
                     (retry_touch st self)) w (Raised e)
        | Some _ => Leave (retry_touch st self) w (Raised e)
        end
      else Leave self w (Raised e)
  | inr res =>
      if closed w then Leave self w SocketClosed
      else
        match _store_result self st rq res with
        | None => Leave self w (Raised KeyError)
        | Some self =>
            let '(self, stop) := _evaluate_response self st rq res kw in
            if stop then Leave self w StoppedByEvaluation
            else
              let '(w, now) := time_time w in
              if Qltb (start_time + execution_time) now
              then Leave self (time_time w).1 TimeExceeded
              else Next self w
        end
  end.

(** The [for] loop. [fuel] bounds the number of times the stream is asked
    for a request; [None] means the bound was too small. *)
Fixpoint execute_loop (fuel : nat) (self : ServiceEnumerator) (w : World)
    (it : Chain) (st : EcuState) (timeout execution_time start_time : Q)
    (kw : Kwargs) : option (ServiceEnumerator * World * Exit) :=
  match fuel with
  | O => None
  | S fuel =>
      match chain_next self it with
      | None =>
          Some (set_state_completed
                  (dict_set st true (_state_completed self)) self,
                w, IteratorFinished)
      | Some (rq, self, it) =>
          match execute_round self w st rq timeout execution_time
                  start_time kw with
          | Leave self w e => Some (self, w, e)
          | Next self w =>
              execute_loop fuel self w it st timeout execution_time
                start_time kw
          end
      end
  end.

Definition execute (fuel : nat) (self : ServiceEnumerator) (socket : World)
    (st : EcuState) (kw : Kwargs)
    : option (ServiceEnumerator * World * Exit) :=
  let timeout := default 1%Q (kw_timeout kw) in
  let execution_time := default 1200%Q (kw_execution_time kw) in
  let kw := kwargs_rest kw in
  let '(self, it) := __get_request_iterator self st kw in
  let '(socket, start_time) := time_time socket in
  execute_loop fuel self socket it st timeout execution_time start_time kw.
End execution.

(** ** Statistics *)

Section statistics.
Context `{EcuStateOps} `{FloatFormat}.

(** [max(times)] and [min(times)]: the first greatest and the first least
    item; [None] stands for the [ValueError] of an empty argument. *)
Definition py_max (times : list Q) : option Q :=
  match times with
  | [] => None
  | x :: rest => Some (fold_left (λ m y, if Qltb m y then y else m) rest x)
  end.

Definition py_min (times : list Q) : option Q :=
  match times with
  | [] => None
  | x :: rest => Some (fold_left (λ m y, if Qltb y m then y else m) rest x)
  end.

Definition py_sum (times : list Q) : Q := fold_left Qplus times 0%Q.

(** [sum(times) / len(times)]; [None] stands for [ZeroDivisionError]. *)
Definition py_avg (times : list Q) : option Q :=
  match length times with
  | O => None
  | S n => Some (py_sum times / inject_Z (Z.of_nat (S n)))%Q
  end.

(** [try: v = str(round(.., 5)) except ..: v = "-"] *)
Definition or_dash (v : option Q) : string :=
  match v with
  | Some x => str_round5 x
  | None => "-"
  end.

Definition has_response (r : ScanResult EcuState) : bool :=
  match resp r with Some _ => true | None => false end.

Definition resp_is_negative (r : ScanResult EcuState) : bool :=
  match resp r with Some p => is_negative p | None => false end.

Definition resp_is_positive (r : ScanResult EcuState) : bool :=
  match resp r with Some p => negb (is_negative p) | None => false end.

(** [[float(x.resp_ts) - float(x.req_ts) for x in answered if
    x.resp_ts is not None and x.req_ts is not None and cond(x)]] *)
Definition answertimes_if (cond : ScanResult EcuState → bool)
    (answered : list (ScanResult EcuState)) : list Q :=
  omap (λ x, match resp_ts x with
             | Some t => if cond x then Some (t - req_ts x)%Q else None
             | None => None
             end) answered.

Definition time_stats (desc postfix : string) (times : list Q)
    : list (string * string * string) :=
  let ma := or_dash (py_max times) in
  let mi := or_dash (py_min times) in
  let avg := or_dash (py_avg times) in
  [ (desc, "answertime_min" +:+ postfix, mi);
    (desc, "answertime_max" +:+ postfix, ma);
    (desc, "answertime_avg" +:+ postfix, avg) ].

(** The body of the loop over the data sets. *)
Definition data_set_stats (desc : string) (data : list (ScanResult EcuState))
    : list (string * string * string) :=
  let answered := filter (λ r, has_response r) data in
  let unanswered := filter (λ r, negb (has_response r)) data in
  let answertimes := answertimes_if (λ _, true) answered in
  let answertimes_nr := answertimes_if resp_is_negative answered in
  let answertimes_pr := answertimes_if resp_is_positive answered in
  let nrs := omap resp (filter (λ r, resp_is_negative r) data) in
  [ (desc, "num_answered", pretty (length answered));
    (desc, "num_unanswered", pretty (length unanswered));
    (desc, "num_negative_resps", pretty (length nrs)) ]
  ++ time_stats desc "" answertimes
  ++ time_stats desc "_nr" answertimes_nr
  ++ time_stats desc "_pr" answertimes_pr.

Definition data_sets (self : ServiceEnumerator)
    : list (string * list (ScanResult EcuState)) :=
  ("all", _results self)
  :: map (λ s, (state_repr s,
                filter (λ r, state r = s) (_results self)))
       (dict_keys (_state_completed self)).

Definition _compute_statistics (self : ServiceEnumerator)
    : list (string * string * string) :=
  flat_map (λ '(desc, data), data_set_stats desc data) (data_sets self).
End statistics.

(** ** Adaptive blacklist and edge discovery *)

(** [l.remove(x)] for an [x] that is in [l]: drop its first occurrence. *)
Fixpoint list_remove_first (x : Z) (l : list Z) : list Z :=
  match l with
  | [] => []
  | y :: l' => if decide (x = y) then l' else y :: list_remove_first x l'
  end.

Section blacklist.
Context `{EcuStateOps} `{EnumeratorOps}.

(** [nrc_dict[code] += 1] on a [defaultdict(int)]. *)
Definition nrc_count_incr (d : list (Z * nat)) (code : Z) : list (Z * nat) :=
  dict_set code (S (default O (dict_get code d))) d.

Definition nrc_dict_of (nrs : list Packet) : list (Z * nat) :=
  fold_left (λ d p, nrc_count_incr d (_get_negative_response_code p)) nrs [].

(** [nr_count / total_nr_count > 0.3], in exact arithmetic. The loop only
    runs over codes that were counted, so the divisor is not zero. *)
Definition over_30_percent (nr_count total_nr_count : nat) : bool :=
  Qltb (3 # 10)
    (inject_Z (Z.of_nat nr_count) / inject_Z (Z.of_nat total_nr_count))%Q.

(** One round of the loop over [nrc_dict.items()]. *)
Definition blacklist_round (total_nr_count : nat) (blacklist : list Z)
    (item : Z * nat) : list Z :=
  let '(nrc, nr_count) := item in
  let blacklist :=
    if negb (bool_decide (nrc ∈ blacklist)) && bool_decide (30 < nr_count)%nat
       && over_30_percent nr_count total_nr_count
    then blacklist ++ [nrc] else blacklist in
  if bool_decide (nrc ∈ blacklist) && bool_decide (nr_count < 10)%nat
  then list_remove_first nrc blacklist else blacklist.

Definition _prepare_negative_response_blacklist (self : ServiceEnumerator)
    : ServiceEnumerator :=
  let nrc_dict := nrc_dict_of (omap resp (results_with_negative_response self)) in
  let total_nr_count := length (results_with_negative_response self) in
  set_negative_response_blacklist
    (fold_left (blacklist_round total_nr_count) nrc_dict
       (_negative_response_blacklist self))
    self.

(** [get_new_edge] of [StateGeneratingServiceEnumerator]; its two
    parameters, the socket and the configuration, are not used. *)
Definition get_new_edge (self : ServiceEnumerator)
    : ServiceEnumerator * option (EcuState * EcuState) :=
  match last (_results self) with
  | None => (self, None)
  | Some r =>
      match resp r with
      | Some rp =>
          if is_modifier_pkt rp then
            let new_state := get_modified_ecu_state rp (req r) (state r) in
            if decide (new_state = state r) then (self, None)
            else
              let edge := (state r, new_state) in
              (set_edge_requests (<[edge := req r]> (_edge_requests self)) self,
               Some edge)
          else (self, None)
      | None => (self, None)
      end
  end.
End blacklist.

(** ** The other views of the result store, and the transitions *)

(** A result with a response and a response time
    ([_AutomotiveTestCaseFilteredScanResult]). *)
Record FilteredScanResult (EcuState : Type) : Type := mkFilteredScanResult {
  f_state : EcuState;
  f_req : Packet;
  f_resp : Packet;
  f_req_ts : Q;
  f_resp_ts : Q
}.
Arguments mkFilteredScanResult {_} _ _ _ _ _.
Arguments f_state {_} _.
Arguments f_req {_} _.
Arguments f_resp {_} _.
Arguments f_req_ts {_} _.
Arguments f_resp_ts {_} _.

(** [repr(pkt)] *)
Class PacketFormat : Type := {
  repr_packet : Packet → string
}.

Section views.
Context `{EcuStateOps} `{EnumeratorOps}.

Definition results (self : ServiceEnumerator) : list (ScanResult EcuState) :=
  _results self.

(** The [cast] of a result that has a response and a response time. *)
Definition as_filtered (r : ScanResult EcuState)
    : option (FilteredScanResult EcuState) :=
  p ← resp r; t ← resp_ts r;
  Some (mkFilteredScanResult (state r) (req r) p (req_ts r) t).

(** The loop skips a result without a response or without a response
    time. *)
Definition results_with_response (self : ServiceEnumerator)
    : list (FilteredScanResult EcuState) :=
  omap as_filtered (_results self).

(** The body of the loop of [filtered_results]: a result is kept if its
    response is positive, or if the code of its negative response is not on
    the blacklist. *)
Definition is_kept (blacklist : list Z) (r : FilteredScanResult EcuState)
    : bool :=
  if negb (is_negative (f_resp r)) then true
  else negb (bool_decide
               (_get_negative_response_code (f_resp r) ∈ blacklist)).

Definition filtered_results (self : ServiceEnumerator)
    : list (FilteredScanResult EcuState) :=
  filter (λ r, is_kept (_negative_response_blacklist self) r)
    (results_with_response self).

(** [set([tup.state for tup in self._results])] *)
Definition scanned_states (self : ServiceEnumerator) : gset EcuState :=
  list_to_set (state <$> _results self).

(** [r.resp and r.resp.service != 0x7f] *)
Definition has_positive_response (r : ScanResult EcuState) : bool :=
  match resp r with
  | Some p => packet_truth p && negb (is_negative p)
  | None => false
  end.

Definition results_with_positive_response (self : ServiceEnumerator)
    : list (ScanResult EcuState) :=
  filter (λ r, has_positive_response r) (_results self).

Definition results_without_response (self : ServiceEnumerator)
    : list (ScanResult EcuState) :=
  filter (λ r, resp r = None) (_results self).

(** The property [completed]; [super_completed] is what the property of
    the base class gives. *)
Definition completed (super_completed : bool) (self : ServiceEnumerator)
    : bool :=
  if bool_decide (length (_results self) ≠ O)
  then forallb (has_completed self) (elements (scanned_states self))
  else super_completed.
End views.

Section transitions.
Context `{EcuStateOps} `{Transport} `{PacketFormat}.

(** The keyword arguments of a transition: [{"desc": .., "req": ..}]. *)
Record TransitionKwargs : Type := mkTransitionKwargs {
  tk_desc : string;
  tk_req : Packet
}.

(** [transition_function(sock, config, kwargs)], with [req] for
    [kwargs.get("req", None)]: the new state of the world and the value
    returned, or the exception that is not caught. *)
Definition transition_function (sock : World) (req : option Packet)
    : World * (Exn + bool) :=
  match req with
  | None => (sock, inr false)
  | Some rq =>
      let '(sock, r) := sr1 sock rq 20%Q in
      match r with
      | inr res =>
          (sock,
           inr match res with
               | Some p => negb (is_negative p)
               | None => false
               end)
      | inl e => if caught e then (sock, inr false) else (sock, inl e)
      end
  end.

(** [None] stands for the [KeyError] of [self._edge_requests[edge]]. *)
Definition get_transition_function_description (self : ServiceEnumerator)
    (edge : EcuState * EcuState) : option string :=
  repr_packet <$> _edge_requests self !! edge.

Definition get_transition_function_kwargs (self : ServiceEnumerator)
    (edge : EcuState * EcuState) : option TransitionKwargs :=
  rq ← _edge_requests self !! edge;
  desc ← get_transition_function_description self edge;
  Some (mkTransitionKwargs desc rq).

(** The tuple returned is [(self.transition_function, kwargs, None)]; its
    first and last component are always the same, so the keyword arguments
    stand for it. [None] is the [None] returned after a [KeyError]. *)
Definition get_transition_function (self : ServiceEnumerator)
    (edge : EcuState * EcuState) : option TransitionKwargs :=
  get_transition_function_kwargs self edge.
End transitions.


(** ** A concrete device, used to run the definitions

    A UDS-like protocol: the service is the first byte, a negative response
    is [0x7f; service; code], the positive response [0x50; n] to a session
    request moves the device to session [n]. States are session numbers. The
    transport plays a script: each exchange takes the next scripted reply,
    and an exchange beyond the script times out. *)

Definition byte_Z (b : byte) : Z := Z.of_N (Byte.to_N b).

Definition byte_at (n : nat) (p : Packet) : Z :=
  default 0 (byte_Z <$> raw p !! n).

Definition demo_states : EcuStateOps := {|
  EcuState := nat;
  is_modifier_pkt := λ p, bool_decide (service p = 0x50);
  get_modified_ecu_state := λ rp _ _, Z.to_nat (byte_at 1 rp);
  state_repr := λ s, pretty s
|}.

Definition demo_requests : list Packet :=
  [ mkPacket 1 [x10; x03] 0x10 (Some 10%Q) 0%Q;
    mkPacket 2 [x11; x01] 0x11 (Some 20%Q) 0%Q;
    mkPacket 3 [x3e; x00] 0x3e (Some 30%Q) 0%Q ].

Definition demo_enumerator : EnumeratorOps := {|
  _get_negative_response_code := byte_at 2;
  _get_initial_requests := λ _ n, demo_requests !! n
|}.

Record Reply : Type := mkReply {
  outcome : Exn + option Packet;
  closes : bool;
  elapsed : Q
}.

Record Script : Type := mkScript {
  replies : list Reply;
  socket_closed : bool;
  clock : Q
}.

Definition demo_transport : Transport := {|
  World := Script;
  sr1 := λ w _ timeout,
    match replies w with
    | [] => (mkScript [] (socket_closed w) (clock w + timeout)%Q, inr None)
    | r :: rest =>
        (mkScript rest (closes r) (clock w + elapsed r)%Q, outcome r)
    end;
  closed := socket_closed;
  time_time := λ w, (w, clock w)
|}.

Definition demo_format : FloatFormat := {|
  str_round5 := λ x, pretty (Qnum (Qred x)) +:+ "/" +:+ pretty (Qden (Qred x))
|}.

(** Some packets of the device. *)
Definition negative_response (id : nat) (sid code : byte) (t : Q) : Packet :=
  mkPacket id [x7f; sid; code] 0x7f None t.

Definition positive_response (id : nat) (rsid : byte) (t : Q) : Packet :=
  mkPacket id [rsid; x00] (byte_Z rsid) None t.

Definition session_response (id : nat) (session : byte) (t : Q) : Packet :=
  mkPacket id [x50; session] 0x50 None t.

(** ** Vocabulary of the properties *)

(** The first packet of a sequence whose bytes are [b]. *)
Definition first_with_raw (b : list byte) (l : list Packet) : option Packet :=
  List.find (λ p, bool_decide (raw p = b)) l.

Section store_sequences.
Context `{EcuStateOps}.

(** The packets one call of [_store_result] is given, in the order in which
    it interns them. *)
Definition call_packets (c : EcuState * Packet * option Packet) : list Packet :=
  c.1.2 :: option_list c.2.

Definition stored_packets (calls : list (EcuState * Packet * option Packet))
    : list Packet :=
  flat_map call_packets calls.

(** A sequence of [_store_result] calls. *)
Fixpoint store_all (self : ServiceEnumerator)
    (calls : list (EcuState * Packet * option Packet))
    : option ServiceEnumerator :=
  match calls with
  | [] => Some self
  | c :: rest =>
      self' ← _store_result self c.1.1 c.1.2 c.2;
      store_all self' rest
  end.

(** The table maps every byte string to the first packet stored with it. *)
Definition table_of (hist : list Packet) (t : list (list byte * Packet))
    : Prop :=
  ∀ b, dict_get b t = first_with_raw b hist.

(** Every result refers to the table's packet for its bytes. *)
Definition results_interned (self : ServiceEnumerator) : Prop :=
  ∀ r, r ∈ _results self →
    dict_get (raw (req r)) (__result_packets self) = Some (req r) ∧
    ∀ p, resp r = Some p → dict_get (raw p) (__result_packets self) = Some p.
End store_sequences.

Section evaluation_vocabulary.
Context `{EcuStateOps} `{EnumeratorOps}.

(** The response is one that the busy case of the evaluation is about:
    [retry_if_busy_returncode] is set (it is when absent), the response is
    negative and its code is 0x21. *)
Definition is_busy_response (kw : Kwargs) (response : Packet) : Prop :=
  default true (kw_retry_if_busy_returncode kw) = true
  ∧ service response = 0x7f
  ∧ _get_negative_response_code response = 0x21.

(** What the busy case does: with no retry pending the request becomes the
    retry and the evaluation says stop; with a retry pending the slot is
    emptied and the evaluation says continue. *)
Definition busy_retry_outcome (self : ServiceEnumerator) (st : EcuState)
    (request response : Packet) (kw : Kwargs) : Prop :=
  let r := _evaluate_response self st request (Some response) kw in
  match retry_slot self st with
  | None => retry_slot r.1 st = Some (RetryPacket request) ∧ r.2 = true
  | Some _ => retry_slot r.1 st = None ∧ r.2 = false
  end.

(** The retry slot after an evaluation outside the busy case: untouched
    without a response, empty after a response. *)
Definition retry_slot_outcome (self : ServiceEnumerator) (st : EcuState)
    (request : Packet) (response : option Packet) (kw : Kwargs) : Prop :=
  let self' := (_evaluate_response self st request response kw).1 in
  match response with
  | None => retry_slot self' st = retry_slot self st
  | Some r => ¬ is_busy_response kw r → retry_slot self' st = None
  end.

(** One of the two options that end the evaluation of a negative response
    before its retry handling applies to the response. *)
Definition exits_early (kw : Kwargs) (response : Packet) : Prop :=
  service response = 0x7f ∧
  (default false (kw_exit_scan_on_first_negative_response kw) = true
   ∨ (default false (kw_exit_if_service_not_supported kw) = true
      ∧ _get_negative_response_code response ∈ [0x11; 0x7f])).
End evaluation_vocabulary.

(** Inputs on the concrete device. *)
Definition demo_session_request : Packet :=
  mkPacket 1 [x10; x03] 0x10 (Some 10%Q) 0%Q.

Definition demo_busy : Packet := negative_response 11 x10 x21 11%Q.

Definition demo_denied : Packet := negative_response 12 x10 x31 12%Q.

Definition kw_exit_on_negative : Kwargs :=
  mkKwargs None None None None None (Some true).

(** A fresh enumerator of the concrete device in which a retry of the
    session request is pending for state 1. *)
Definition demo_retry_pending : @ServiceEnumerator demo_states :=
  @retry_assign demo_states 1%nat (Some (RetryPacket demo_session_request))
    (@__init__ demo_states).

Section edge_vocabulary.
Context `{EcuStateOps}.

(** The most recently stored result has a response that is classified as
    state-modifying and that, applied with the request [rq] of the result to
    its state [a], gives a different state [b]. *)
Definition last_result_moves (self : ServiceEnumerator) (a b : EcuState)
    (rq : Packet) : Prop :=
  ∃ r rp,
    last (_results self) = Some r ∧ resp r = Some rp ∧
    is_modifier_pkt rp = true ∧
    state r = a ∧ req r = rq ∧
    get_modified_ecu_state rp rq a = b ∧ b ≠ a.
End edge_vocabulary.

Section blacklist_vocabulary.
Context `{EcuStateOps} `{EnumeratorOps}.

(** The codes of the negative responses among the stored results, one for
    each such result, in the order of the results. *)
Definition negative_codes (self : ServiceEnumerator) : list Z :=
  omap (λ r, match resp r with
             | Some p =>
                 if bool_decide (service p = 0x7f)
                 then Some (_get_negative_response_code p) else None
             | None => None
             end) (_results self).

(** How often the code [c] occurs among [codes]. *)
Definition occurrences (c : Z) (codes : list Z) : nat :=
  length (filter (λ x, x = c) codes).
End blacklist_vocabulary.

(** The codes that a run over the counted [items] appends to the blacklist
    [bl], and the ones it removes from it, each in the order of the items. *)
Definition appended_codes (bl : list Z) (total : nat) (items : list (Z * nat))
    : list Z :=
  (filter (λ it, (it.1 ∉ bl) ∧ (30 < it.2)%nat ∧ (3 * total < 10 * it.2)%nat)
     items).*1.

Definition removed_codes (bl : list Z) (items : list (Z * nat)) : list Z :=
  (filter (λ it, it.1 ∈ bl ∧ (it.2 < 10)%nat) items).*1.

(** [l.remove(c)] for each [c] of [removed], one after the other. *)
Definition remove_each (removed : list Z) (l : list Z) : list Z :=
  foldl (λ l c, list_remove_first c l) l removed.

Section execution_vocabulary.
Context `{EcuStateOps} `{EnumeratorOps} `{Transport}.

(** The enumerator a round of the loop leaves behind. *)
Definition round_self (r : Round) : ServiceEnumerator :=
  match r with
  | Next self _ => self
  | Leave self _ _ => self
  end.

(** The result store [after] is the store [before] with one more result,
    which records the exchange of [rq] and [res] in state [st]: it holds the
    interned request, the interned response if there is one, and the two
    timestamps. *)
Definition recorded_in (before after : ServiceEnumerator) (st : EcuState)
    (rq : Packet) (res : option Packet) : Prop :=
  ∃ r,
    _results after = _results before ++ [r] ∧
    state r = st ∧
    dict_get (raw rq) (__result_packets after) = Some (req r) ∧
    match res with
    | Some p =>
        ∃ c, resp r = Some c ∧ dict_get (raw p) (__result_packets after) = Some c
    | None => resp r = None
    end ∧
    req_ts r = or_zero (sent_time rq) ∧ resp_ts r = time <$> res.



(** The state has no request left: no retry is pending, and its iterator
    over the initial requests, the registered one or else a new one, is at
    its end. *)
Definition nothing_to_send (self : ServiceEnumerator) (st : EcuState)
    (kw : Kwargs) : Prop :=
  retry_slot self st = None ∧
  iter_next (default (iter (_get_initial_requests (kwargs_rest kw)))
               (_request_iterators self !! st)) = None.
End execution_vocabulary.

(** Scripts for the concrete device. *)
Definition demo_failing : Script :=
  mkScript [mkReply (inl OSError) false 1%Q] false 0%Q.

Definition demo_closing : Script :=
  mkScript [mkReply (inr (Some demo_denied)) true 1%Q] false 0%Q.

Definition demo_answering : Script :=
  mkScript [mkReply (inr (Some demo_denied)) false 1%Q] false 0%Q.

Section stream_vocabulary.
Context `{EcuStateOps}.



(** The items a retry slot stands for. *)
Definition retry_items (slot : option RetryEntry) : list Packet :=
  match slot with
  | None => []
  | Some (RetryPacket p) => [p]
  | Some (RetryIterable l) => l
  end.
End stream_vocabulary.

Section termination_vocabulary.
Context `{EcuStateOps}.

(** The stream has at most [n] requests left: its retry items, and the
    items before some end of the sequence of its iterator. *)
Definition stream_bound (self : ServiceEnumerator) (c : Chain) (n : nat)
    : Prop :=
  match _request_iterators self !! chain_initial c with
  | Some i =>
      ∃ k : nat, it_gen i (it_pos i + k) = None
                 ∧ (length (chain_retry c) + k ≤ n)%nat
  | None => (length (chain_retry c) ≤ n)%nat
  end.
End termination_vocabulary.

(** Least and greatest item, sum and mean of a list of rationals. *)
Definition is_least (m : Q) (l : list Q) : Prop :=
  m ∈ l ∧ ∀ x, x ∈ l → (m <= x)%Q.

Definition is_greatest (m : Q) (l : list Q) : Prop :=
  m ∈ l ∧ ∀ x, x ∈ l → (x <= m)%Q.

Definition total (l : list Q) : Q := foldr Qplus 0%Q l.

Definition is_mean (a : Q) (l : list Q) : Prop :=
  (a * inject_Z (Z.of_nat (length l)) == total l)%Q.

Section statistics_vocabulary.
Context `{EcuStateOps} `{FloatFormat}.

(** The latencies of a data set: response time minus request time of the
    results that have a response that satisfies [P] and a response time. *)
Definition latencies (P : Packet → Prop) `{∀ p, Decision (P p)}
    (data : list (ScanResult EcuState)) : list Q :=
  omap (λ r, p ← resp r; t ← resp_ts r;
             if decide (P p) then Some (t - req_ts r)%Q else None) data.

(** What the minimum, maximum and average entries for a list of latencies
    have to say: the sentinel for an empty list, and else the least item,
    the greatest item and the mean, each as [str_round5] prints it. *)
Definition summary_of (times : list Q) (mi ma avg : string) : Prop :=
  match times with
  | [] => mi = "-" ∧ ma = "-" ∧ avg = "-"
  | _ :: _ =>
      ∃ m M a,
        is_least m times ∧ is_greatest M times ∧ is_mean a times ∧
        mi = str_round5 m ∧ ma = str_round5 M ∧ avg = str_round5 a
  end.
End statistics_vocabulary.

Section demo_runs.
#[local] Existing Instance demo_states.
#[local] Existing Instance demo_enumerator.
#[local] Existing Instance demo_transport.
#[local] Existing Instance demo_format.

(** The scenario of the specification: requests A, B, C; A is answered
    busy twice, B positively, C not at all. *)
Definition demo_scenario : Script :=
  mkScript
    [ mkReply (inr (Some (negative_response 11 x10 x21 11%Q))) false 1%Q;
      mkReply (inr (Some (negative_response 12 x10 x21 12%Q))) false 1%Q;
      mkReply (inr (Some (positive_response 13 x51 21%Q))) false 1%Q ]
    false 0%Q.

(** What the examples look at after a call of [execute]: the packet
    identities in the stored results, the retry slot and the completion mark
    of state 1, and the way the call ended. *)
Definition run_summary (r : option (ServiceEnumerator * Script * Exit))
    : option (list (nat * option nat) * option RetryEntry * bool * Exit) :=
  '(self, _, e) ← r;
  Some ((λ r, (pkt_id (req r), pkt_id <$> resp r)) <$> _results self,
        retry_slot self 1%nat, has_completed self 1%nat, e).

Definition first_call := execute 10 __init__ demo_scenario 1%nat no_kwargs.

Definition second_call :=
  '(self, w, _) ← first_call; execute 10 self w 1%nat no_kwargs.

(** Two calls on a transport that fails both times. *)
Definition demo_failing_twice : Script :=
  mkScript [mkReply (inl OSError) false 1%Q; mkReply (inl ValueError) false 1%Q]
    false 0%Q.

Definition first_failure :=
  execute 10 __init__ demo_failing_twice 1%nat no_kwargs.

Definition second_failure :=
  '(self, w, _) ← first_failure; execute 10 self w 1%nat no_kwargs.

(** Three answered results with latencies 1, 2 and 3 and one unanswered
    result. *)
Definition demo_results : list (ScanResult nat) :=
  [ mkScanResult 1%nat demo_session_request
      (Some (positive_response 21 x7e 11%Q)) 10%Q (Some 11%Q);
    mkScanResult 1%nat demo_session_request
      (Some (positive_response 22 x7e 22%Q)) 20%Q (Some 22%Q);
    mkScanResult 1%nat demo_session_request
      (Some (positive_response 23 x7e 33%Q)) 30%Q (Some 33%Q);
    mkScanResult 1%nat demo_session_request None 40%Q None ].

(** [n] results with a negative response of the given code. *)
Definition negative_results (code : byte) (n : nat)
    : list (ScanResult nat) :=
  replicate n
    (mkScanResult 1%nat demo_session_request
       (Some (negative_response 30 x10 code 1%Q)) 0%Q (Some 1%Q)).
End demo_runs.

Section more_vocabulary.
Context `{EcuStateOps}.

(** The store is consistent: its table maps every byte string to the first
    packet of some history of stored packets, and its results refer to the
    table. *)
Definition store_consistent (self : ServiceEnumerator) : Prop :=
  (∃ hist, table_of hist (__result_packets self)) ∧ results_interned self.
End more_vocabulary.

Section more_execution_vocabulary.
Context `{EcuStateOps} `{EnumeratorOps}.

(** The state has at most [n] requests left for a call with the options
    [kw]: its retry items, and the items before some end of its iterator
    over the initial requests, the registered one or else a new one. *)
Definition requests_left (self : ServiceEnumerator) (st : EcuState)
    (kw : Kwargs) (n : nat) : Prop :=
  let i := default (iter (_get_initial_requests (kwargs_rest kw)))
             (_request_iterators self !! st) in
  ∃ k : nat, it_gen i (it_pos i + k) = None
             ∧ (length (retry_items (retry_slot self st)) + k ≤ n)%nat.
End more_execution_vocabulary.

Section drain_vocabulary.
Context `{EcuStateOps} `{EnumeratorOps} `{Transport}.

(** The round for the request [rq] has none of the early exits: the
    exchange ends with a response or a timeout and not with an exception,
    the socket is not closed after it, the evaluation of the stored result
    does not ask to stop, and the time is not up. [self'] and [w'] are the
    enumerator and the world the round leaves. *)
Definition round_goes_on (self : ServiceEnumerator) (w : World)
    (st : EcuState) (rq : Packet) (timeout execution_time start_time : Q)
    (kw : Kwargs) (self' : ServiceEnumerator) (w' : World) : Prop :=
  ∃ w1 res stored now,
    sr1 w rq timeout = (w1, inr res) ∧
    closed w1 = false ∧
    _store_result self st rq res = Some stored ∧
    _evaluate_response stored st rq res kw = (self', false) ∧
    time_time w1 = (w', now) ∧
    Qltb (start_time + execution_time) now = false.

(** The stream [it] gives exactly [n] requests, and the round of each of
    them goes on; [last] and [wl] are the enumerator and the world once the
    stream has ended. *)
Fixpoint stream_drained (n : nat) (self : ServiceEnumerator) (w : World)
    (it : Chain) (st : EcuState) (timeout execution_time start_time : Q)
    (kw : Kwargs) (last : ServiceEnumerator) (wl : World) : Prop :=
  match n with
  | O => chain_next self it = None ∧ last = self ∧ wl = w
  | S n =>
      ∃ rq self1 it1 self2 w2,
        chain_next self it = Some (rq, self1, it1) ∧
        round_goes_on self1 w st rq timeout execution_time start_time kw
          self2 w2 ∧
        stream_drained n self2 w2 it1 st timeout execution_time start_time
          kw last wl
  end.

(** A call of [execute] for the state [st] drains the request stream of
    the state in [n] exchanges without an early exit. *)
Definition drains (n : nat) (self : ServiceEnumerator) (w : World)
    (st : EcuState) (kw : Kwargs) (last : ServiceEnumerator) (wl : World)
    : Prop :=
  let start := __get_request_iterator self st (kwargs_rest kw) in
  stream_drained n start.1 (time_time w).1 start.2 st
    (default 1%Q (kw_timeout kw)) (default 1200%Q (kw_execution_time kw))
    (time_time w).2 (kwargs_rest kw) last wl.

(** The same as a function that can be run: the enumerator and the world
    after [n] rounds of the loop that all go on and a stream that has then
    ended, [None] if the stream or a round does otherwise. *)
Fixpoint drain (n : nat) (self : ServiceEnumerator) (w : World)
    (it : Chain) (st : EcuState) (timeout execution_time start_time : Q)
    (kw : Kwargs) : option (ServiceEnumerator * World) :=
  match n, chain_next self it with
  | O, None => Some (self, w)
  | S n, Some (rq, self1, it1) =>
      match execute_round self1 w st rq timeout execution_time start_time
              kw with
      | Next self2 w2 =>
          drain n self2 w2 it1 st timeout execution_time start_time kw
      | Leave _ _ _ => None
      end
  | _, _ => None
  end.

Definition execute_drain (n : nat) (self : ServiceEnumerator) (w : World)
    (st : EcuState) (kw : Kwargs) : option (ServiceEnumerator * World) :=
  let start := __get_request_iterator self st (kwargs_rest kw) in
  drain n start.1 (time_time w).1 start.2 st
    (default 1%Q (kw_timeout kw)) (default 1200%Q (kw_execution_time kw))
    (time_time w).2 (kwargs_rest kw).
End drain_vocabulary.

(** A device that answers each of the three requests positively. *)
Definition demo_cooperative : Script :=
  mkScript
    [ mkReply (inr (Some (positive_response 21 x62 11%Q))) false 1%Q;
      mkReply (inr (Some (positive_response 22 x51 21%Q))) false 1%Q;
      mkReply (inr (Some (positive_response 23 x7e 31%Q))) false 1%Q ]
    false 0%Q.

(** More scripts for the concrete device: one that never answers, and one
    whose transport raises an exception that [execute] does not catch. *)
Definition demo_silent : Script := mkScript [] false 0%Q.

Definition demo_crashing : Script :=
  mkScript [mkReply (inl OtherException) false 1%Q] false 0%Q.

(** A fresh enumerator of the concrete device in which state 1 is marked
    completed. *)
Definition demo_completed : @ServiceEnumerator demo_states :=
  @set_state_completed demo_states [(1%nat, true)] (@__init__ demo_states).

(** [repr] of the concrete device shows the identity of the packet. *)
Definition demo_packet_format : PacketFormat := {|
  repr_packet := λ p, pretty (pkt_id p)
|}.
(** An enumerator of the concrete device for which state 1 has a pending
    retry of the session request and an iterator at its end. *)
Definition demo_retry_only : @ServiceEnumerator demo_states :=
  @set_request_iterators demo_states
    {[ 1%nat := mkIterator (λ n, demo_requests !! n) 3 ]} demo_retry_pending.


(** A store of the concrete device with 5 negative responses of code 0x11
    and 95 of code 0x33. *)
Definition demo_negative_store : @ServiceEnumerator demo_states :=
  @set_results demo_states
    (negative_results x11 5 ++ negative_results x33 95)
    (@__init__ demo_states).

(** One of its results with code 0x11, as [results_with_response] gives
    it. *)
Definition demo_rare_result : FilteredScanResult nat :=
  mkFilteredScanResult 1%nat demo_session_request
    (negative_response 30 x10 x11 1%Q) 0%Q 1%Q.

(** State 1 has a result and is marked completed. *)
Definition demo_scanned : @ServiceEnumerator demo_states :=
  @set_results demo_states
    [mkScanResult 1%nat demo_session_request None 10%Q None] demo_completed.


(** * Properties *)

(** ** Rationals *)

Lemma Qltb_lt x y : Qltb x y = true ↔ (x < y)%Q.
Proof.
  unfold Qltb. rewrite negb_true_iff, <- not_true_iff_false, Qle_bool_iff.
  split; [apply Qnot_le_lt | apply Qlt_not_le].
Qed.

(** ** Dictionaries *)

Section pydict_facts.
Context {K V : Type} `{EqDecision K}.
Implicit Types (k : K) (v : V) (d : list (K * V)).

Lemma dict_get_set_eq k v d : dict_get k (dict_set k v d) = Some v.
Proof.
  induction d as [|[k' v'] d IH]; simpl.
  - by rewrite decide_True.
  - destruct (decide (k = k')) as [->|Hne]; simpl.
    + by rewrite decide_True.
    + by rewrite decide_False.
Qed.

Lemma dict_get_set_ne k k' v d :
  k ≠ k' → dict_get k' (dict_set k v d) = dict_get k' d.
Proof.
  intros Hne. induction d as [|[k0 v0] d IH]; simpl.
  - by rewrite decide_False.
  - destruct (decide (k = k0)) as [->|Hk]; simpl.
    + by rewrite !decide_False.
    + destruct (decide (k' = k0)); done.
Qed.

Lemma dict_get_set k k' v d :
  dict_get k' (dict_set k v d) =
    if decide (k = k') then Some v else dict_get k' d.
Proof.
  destruct (decide (k = k')) as [->|Hne].
  - apply dict_get_set_eq.
  - by apply dict_get_set_ne.
Qed.

Lemma dict_contains_get k d :
  dict_contains k d = true ↔ is_Some (dict_get k d).
Proof.
  unfold dict_contains. destruct (dict_get k d) as [v|].
  - split; [by eexists | done].
  - split; [done | by intros [? ?]].
Qed.

Lemma dict_get_keys k d : is_Some (dict_get k d) ↔ k ∈ dict_keys d.
Proof.
  unfold dict_keys. induction d as [|[k' v'] d IH]; simpl.
  - split; [by intros [? ?] | by intros ?%elem_of_nil].
  - destruct (decide (k = k')) as [->|Hne].
    + split; [intros _; left | by eexists].
    + rewrite IH, elem_of_cons.
      split; [by right | intros [?|?]; [congruence | done]].
Qed.

Lemma dict_keys_set k v d :
  dict_keys (dict_set k v d) =
    if dict_contains k d then dict_keys d else dict_keys d ++ [k].
Proof.
  unfold dict_keys, dict_contains. induction d as [|[k' v'] d IH]; csimpl.
  - done.
  - destruct (decide (k = k')) as [->|Hne]; csimpl; [done|].
    rewrite IH. by destruct (dict_get k d).
Qed.

Lemma dict_keys_NoDup_set k v d :
  NoDup (dict_keys d) → NoDup (dict_keys (dict_set k v d)).
Proof.
  intros Hnd. rewrite dict_keys_set.
  destruct (dict_contains k d) eqn:Hc; [done|].
  apply NoDup_app. split_and!; [done| |apply NoDup_singleton].
  intros x Hx ->%list_elem_of_singleton.
  apply dict_get_keys, dict_contains_get in Hx. congruence.
Qed.
End pydict_facts.

(** ** Result store: interning *)

Lemma first_with_raw_app b l1 l2 :
  first_with_raw b (l1 ++ l2) =
    match first_with_raw b l1 with
    | Some p => Some p
    | None => first_with_raw b l2
    end.
Proof.
  unfold first_with_raw. induction l1 as [|p l1 IH]; simpl; [done|].
  by destruct (bool_decide (raw p = b)).
Qed.

Lemma first_with_raw_Some b l p : first_with_raw b l = Some p → raw p = b.
Proof.
  unfold first_with_raw. intros [_ Hp]%find_some.
  by apply bool_decide_eq_true in Hp.
Qed.

Section result_store_facts.
Context `{EcuStateOps}.
Implicit Types (self : ServiceEnumerator) (hist : list Packet).

(** Interning one packet extends the history by it. *)
Lemma table_of_intern hist t p :
  table_of hist t →
  table_of (hist ++ [p])
    (if negb (dict_contains (raw p) t) then dict_set (raw p) p t else t).
Proof.
  intros Ht b. rewrite first_with_raw_app, <- Ht. unfold dict_contains.
  destruct (dict_get (raw p) t) as [c|] eqn:Hc; simpl.
  - destruct (dict_get b t) as [x|] eqn:Hb; [done|].
    unfold first_with_raw; simpl. rewrite bool_decide_eq_false_2; [done|].
    intros <-. congruence.
  - rewrite dict_get_set. unfold first_with_raw; simpl.
    destruct (decide (raw p = b)) as [<-|Hne].
    + by rewrite Hc, bool_decide_eq_true_2.
    + rewrite bool_decide_eq_false_2 by done. by destruct (dict_get b t).
Qed.

Lemma table_of_grows hist more t t' b p :
  table_of hist t → table_of (hist ++ more) t' →
  dict_get b t = Some p → dict_get b t' = Some p.
Proof.
  intros Ht Ht' Hb. rewrite Ht', first_with_raw_app, <- Ht. by rewrite Hb.
Qed.

(** One call: it cannot fail, it interns the request and then the
    response, and it appends one result that refers to the table. *)
Lemma _store_result_spec self hist st rq res :
  table_of hist (__result_packets self) →
  ∃ self' rq_c res_c,
    _store_result self st rq res = Some self' ∧
    table_of (hist ++ rq :: option_list res) (__result_packets self') ∧
    dict_get (raw rq) (__result_packets self') = Some rq_c ∧
    match res with
    | Some r => ∃ c, res_c = Some c
                     ∧ dict_get (raw r) (__result_packets self') = Some c
    | None => res_c = None
    end ∧
    _results self' =
      _results self ++
        [mkScanResult st rq_c res_c (or_zero (sent_time rq)) (time <$> res)] ∧
    _request_iterators self' = _request_iterators self ∧
    _retry_pkt self' = _retry_pkt self ∧
    _negative_response_blacklist self' = _negative_response_blacklist self ∧
    _state_completed self' = _state_completed self ∧
    _edge_requests self' = _edge_requests self.
Proof.
  intros Ht. unfold _store_result.
  set (t1 := if negb (dict_contains (raw rq) (__result_packets self))
             then dict_set (raw rq) rq (__result_packets self)
             else __result_packets self).
  assert (Ht1 : table_of (hist ++ [rq]) t1) by by apply table_of_intern.
  assert (H1 : is_Some (dict_get (raw rq) t1)).
  { subst t1. unfold dict_contains.
    destruct (dict_get (raw rq) (__result_packets self)) eqn:E; simpl.
    - rewrite E. by eexists.
    - rewrite dict_get_set_eq. by eexists. }
  destruct H1 as [c1 Hc1].
  destruct res as [r|]; simpl.
  - set (t2 := if negb (dict_contains (raw r) t1)
               then dict_set (raw r) r t1 else t1).
    assert (Ht2 : table_of ((hist ++ [rq]) ++ [r]) t2)
      by by apply table_of_intern.
    assert (H2 : is_Some (dict_get (raw r) t2)).
    { subst t2. unfold dict_contains.
      destruct (dict_get (raw r) t1) eqn:E; simpl.
      - rewrite E. by eexists.
      - rewrite dict_get_set_eq. by eexists. }
    destruct H2 as [c2 Hc2].
    assert (Hc1' : dict_get (raw rq) t2 = Some c1)
      by by eapply (table_of_grows (hist ++ [rq]) [r] t1 t2).
    rewrite Hc1'; simpl. rewrite Hc2; simpl.
    eexists _, c1, (Some c2). split; [done|]. simpl.
    rewrite <- app_assoc in Ht2. split_and!; eauto.
  - rewrite Hc1; simpl.
    eexists _, c1, None. split; [done|]. simpl. split_and!; eauto.
Qed.

(** One call keeps both invariants of the store. *)
Lemma _store_result_interned self hist st rq res self' :
  table_of hist (__result_packets self) → results_interned self →
  _store_result self st rq res = Some self' →
  table_of (hist ++ call_packets (st, rq, res)) (__result_packets self')
  ∧ results_interned self'.
Proof.
  intros Ht Hi Hs.
  destruct (_store_result_spec self hist st rq res Ht)
    as (s' & rq_c & res_c & Hs' & Ht' & Hrq & Hres & Hr & _).
  rewrite Hs in Hs'. injection Hs' as <-. split; [done|].
  intros r. rewrite Hr, elem_of_app, list_elem_of_singleton.
  intros [Hin | ->]; simpl.
  - destruct (Hi r Hin) as [Hq Hp]. split.
    + exact (table_of_grows hist _ _ _ _ _ Ht Ht' Hq).
    + intros p Hrp. exact (table_of_grows hist _ _ _ _ _ Ht Ht' (Hp p Hrp)).
  - assert (Hraw : raw rq_c = raw rq).
    { eapply first_with_raw_Some. by rewrite <- Ht'. }
    split; [by rewrite Hraw|].
    intros p ->. destruct res as [r0|]; [|done].
    destruct Hres as (c & [= <-] & Hc).
    assert (Hraw' : raw p = raw r0).
    { eapply first_with_raw_Some. by rewrite <- Ht'. }
    by rewrite Hraw'.
Qed.

(** Any sequence of calls goes through, and keeps both invariants. *)
Lemma store_all_spec calls self hist :
  table_of hist (__result_packets self) → results_interned self →
  ∃ self',
    store_all self calls = Some self' ∧
    table_of (hist ++ stored_packets calls) (__result_packets self') ∧
    results_interned self' ∧
    length (_results self') = (length (_results self) + length calls)%nat.
Proof.
  revert self hist. induction calls as [|[[st rq] res] calls IH];
    intros self hist Ht Hi; simpl.
  - exists self. rewrite app_nil_r. split_and!; [done..|lia].
  - destruct (_store_result_spec self hist st rq res Ht)
      as (s' & rq_c & res_c & Hs' & _ & _ & _ & Hr & _).
    rewrite Hs'; simpl.
    destruct (_store_result_interned _ _ _ _ _ _ Ht Hi Hs') as [Ht' Hi'].
    destruct (IH s' _ Ht' Hi') as (s'' & Hs'' & Ht'' & Hi'' & Hlen).
    exists s''. split; [done|]. split_and!; [|done|].
    + rewrite <- app_assoc in Ht''. exact Ht''.
    + rewrite Hlen, Hr, length_app. simpl. lia.
Qed.

(** C7. Packet interning in the result store. Take a fresh enumerator and
    any sequence of [_store_result] calls, cut anywhere into [calls] and
    [more]. No call fails. Afterwards two stored results whose requests have
    equal bytes hold the very same request object, and two stored responses
    with equal bytes are the very same object; that object is the first
    packet stored with those bytes. Every entry the table had after [calls]
    is still there, with the same packet, after [more]: the table only
    gains entries. *)
Theorem store_result_interns
    (calls more : list (EcuState * Packet * option Packet)) :
  ∃ s1 s2,
    store_all __init__ calls = Some s1 ∧
    store_all s1 more = Some s2 ∧
    (∀ r1 r2, r1 ∈ _results s2 → r2 ∈ _results s2 →
       raw (req r1) = raw (req r2) → req r1 = req r2) ∧
    (∀ r1 r2 p1 p2, r1 ∈ _results s2 → r2 ∈ _results s2 →
       resp r1 = Some p1 → resp r2 = Some p2 →
       raw p1 = raw p2 → p1 = p2) ∧
    (∀ r, r ∈ _results s2 →
       first_with_raw (raw (req r)) (stored_packets (calls ++ more))
         = Some (req r)) ∧
    (∀ r p, r ∈ _results s2 → resp r = Some p →
       first_with_raw (raw p) (stored_packets (calls ++ more)) = Some p) ∧
    (∀ b p, dict_get b (__result_packets s1) = Some p →
       dict_get b (__result_packets s2) = Some p) ∧
    length (_results s2) = length (calls ++ more).
Proof.
  assert (Ht0 : table_of [] (__result_packets __init__)) by done.
  assert (Hi0 : results_interned __init__) by (by intros r ?%elem_of_nil).
  destruct (store_all_spec calls __init__ [] Ht0 Hi0)
    as (s1 & Hs1 & Ht1 & Hi1 & Hl1).
  destruct (store_all_spec more s1 _ Ht1 Hi1)
    as (s2 & Hs2 & Ht2 & Hi2 & Hl2).
  simpl in Ht1, Ht2.
  assert (Hhist : stored_packets calls ++ stored_packets more
                  = stored_packets (calls ++ more)).
  { unfold stored_packets. by rewrite flat_map_app. }
  rewrite Hhist in Ht2.
  exists s1, s2. split_and!; [done|done|..].
  - intros r1 r2 [H1 _]%Hi2 [H2 _]%Hi2 Heq. rewrite Heq in H1. congruence.
  - intros r1 r2 p1 p2 [_ H1]%Hi2 [_ H2]%Hi2 Hp1 Hp2 Heq.
    specialize (H1 _ Hp1). specialize (H2 _ Hp2).
    rewrite Heq in H1. congruence.
  - intros r [Hr _]%Hi2. by rewrite <- Ht2.
  - intros r p [_ Hr]%Hi2 Hp. rewrite <- Ht2. by apply Hr.
  - intros b p Hb. rewrite <- Hhist in Ht2.
    exact (table_of_grows _ _ _ _ _ _ Ht1 Ht2 Hb).
  - rewrite Hl2, Hl1, length_app. simpl. lia.
Qed.
End result_store_facts.

(** ** Retry slot *)

Section retry_slot_facts.
Context `{EcuStateOps}.
Implicit Types (self : ServiceEnumerator) (st : EcuState).

Lemma retry_slot_assign self st st' v :
  retry_slot (retry_assign st v self) st' =
    if decide (st = st') then v else retry_slot self st'.
Proof.
  unfold retry_slot, retry_assign; simpl. rewrite lookup_insert.
  by destruct (decide (st = st')).
Qed.

Lemma retry_slot_assign_eq self st v :
  retry_slot (retry_assign st v self) st = v.
Proof. rewrite retry_slot_assign. by rewrite decide_True. Qed.

Lemma retry_slot_touch self st st' :
  retry_slot (retry_touch st self) st' = retry_slot self st'.
Proof.
  unfold retry_slot, retry_touch.
  destruct (_retry_pkt self !! st) eqn:E; [done|]. simpl.
  rewrite lookup_insert. destruct (decide (st = st')) as [<-|]; [|done].
  by rewrite E.
Qed.

Lemma retry_assign_touch self st v :
  retry_assign st v (retry_touch st self) = retry_assign st v self.
Proof.
  unfold retry_assign, retry_touch.
  destruct (_retry_pkt self !! st); [done|]. destruct self; simpl.
  unfold set_retry_pkt; simpl. by rewrite insert_insert_eq.
Qed.
End retry_slot_facts.

(** ** Response evaluation *)

Section evaluation_facts.
Context `{EcuStateOps} `{EnumeratorOps}.
Implicit Types (self : ServiceEnumerator) (st : EcuState) (kw : Kwargs).

Lemma is_negative_true p : is_negative p = true ↔ service p = 0x7f.
Proof. unfold is_negative. apply bool_decide_eq_true. Qed.

(** The evaluation reaches its busy case exactly on a busy response that
    did not end it early. *)
Lemma _evaluate_response_busy self st request response kw :
  is_busy_response kw response →
  default false (kw_exit_scan_on_first_negative_response kw) = false →
  _evaluate_response self st request (Some response) kw =
    match retry_slot self st with
    | None => (retry_assign st (Some (RetryPacket request)) self, true)
    | Some _ => (retry_assign st None self, false)
    end.
Proof.
  intros (Hbusy & Hneg%is_negative_true & Hcode) Hexit.
  unfold _evaluate_response. rewrite Hexit, Hbusy, Hneg, Hcode. simpl.
  rewrite andb_false_r, !retry_assign_touch.
  by destruct (retry_slot self st).
Qed.

(** C1, as amended. A busy response (negative, code 0x21, under
    [retry_if_busy_returncode]) evaluated without
    [exit_scan_on_first_negative_response]: with no retry pending for the
    state the request becomes its retry and the evaluation says stop; with a
    retry pending the slot is emptied and the evaluation says continue, and
    the retry part of the next request stream is empty, so the request is not
    sent a third time. The slots of other states stay as they are. *)
Theorem busy_response_retries_once self st request response kw :
  is_busy_response kw response →
  default false (kw_exit_scan_on_first_negative_response kw) = false →
  let self' := (_evaluate_response self st request (Some response) kw).1 in
  busy_retry_outcome self st request response kw
  ∧ (is_Some (retry_slot self st) → (__get_retry_iterator self' st).2 = [])
  ∧ (∀ st', st' ≠ st → retry_slot self' st' = retry_slot self st').
Proof.
  intros Hbusy Hexit. unfold busy_retry_outcome. cbv zeta.
  rewrite (_evaluate_response_busy _ _ _ _ _ Hbusy Hexit).
  destruct (retry_slot self st) as [e|] eqn:Hslot; simpl.
  - split; [|split].
    + by rewrite retry_slot_assign_eq.
    + intros _. unfold __get_retry_iterator.
      by rewrite retry_slot_assign_eq.
    + intros st' Hne. rewrite retry_slot_assign. by rewrite decide_False.
  - split; [|split].
    + by rewrite retry_slot_assign_eq.
    + by intros [? ?].
    + intros st' Hne. rewrite retry_slot_assign. by rewrite decide_False.
Qed.

(** Without a response the evaluation changes nothing at all. *)
Lemma _evaluate_response_timeout self st request kw :
  (_evaluate_response self st request None kw).1 = self.
Proof. done. Qed.

(** C10, as amended. Without a response the evaluation leaves the retry
    slot of the state as it is. After a response that is not a busy one and
    does not end the evaluation early (no negative response under
    [exit_scan_on_first_negative_response], no negative response with code
    0x11 or 0x7f under [exit_if_service_not_supported]) the slot of the state
    is empty, whatever it held and whatever the evaluation then decides. *)
Theorem evaluation_clears_retry_slot self st request response kw :
  (∀ r, response = Some r → ¬ exits_early kw r) →
  retry_slot_outcome self st request response kw.
Proof.
  intros Hearly. unfold retry_slot_outcome.
  destruct response as [r|]; [|done].
  intros Hnb. specialize (Hearly r eq_refl).
  unfold _evaluate_response.
  destruct (default false (kw_exit_scan_on_first_negative_response kw)
            && is_negative r) eqn:E1.
  { exfalso. apply Hearly. apply andb_true_iff in E1 as [? ?%is_negative_true].
    split; [done|]. by left. }
  destruct (default false (kw_exit_if_service_not_supported kw)
            && is_negative r
            && bool_decide (_get_negative_response_code r ∈ [0x11; 0x7f]))
    eqn:E2.
  { exfalso. apply Hearly.
    apply andb_true_iff in E2 as [[? ?%is_negative_true]%andb_true_iff Hc].
    apply bool_decide_eq_true in Hc. split; [done|]. by right. }
  destruct (default true (kw_retry_if_busy_returncode kw) && is_negative r
            && bool_decide (_get_negative_response_code r = 0x21)) eqn:E3.
  { exfalso. apply Hnb.
    apply andb_true_iff in E3 as [[? ?%is_negative_true]%andb_true_iff Hc].
    by apply bool_decide_eq_true in Hc. }
  destruct (is_modifier_pkt r
            && bool_decide (st ≠ get_modified_ecu_state r request st));
    simpl; by rewrite retry_slot_assign_eq.
Qed.
End evaluation_facts.

(** C1, as stated, fails: under [exit_scan_on_first_negative_response] a
    busy response to a pending retry stops the execution and leaves the
    retry where it is. *)
Lemma busy_response_exit_scan_counterexample :
  @is_busy_response demo_enumerator kw_exit_on_negative demo_busy
  ∧ ¬ @busy_retry_outcome demo_states demo_enumerator demo_retry_pending
        1%nat demo_session_request demo_busy kw_exit_on_negative.
Proof.
  split; [by repeat split|].
  unfold busy_retry_outcome. vm_compute. by intros [? ?].
Qed.

(** The theorem at work: a busy answer to a pending retry of the session
    request, under the default options. *)
Lemma busy_response_retries_once_witness :
  @is_busy_response demo_enumerator no_kwargs demo_busy
  ∧ @busy_retry_outcome demo_states demo_enumerator demo_retry_pending
      1%nat demo_session_request demo_busy no_kwargs.
Proof.
  assert (Hb : @is_busy_response demo_enumerator no_kwargs demo_busy)
    by (by repeat split).
  split; [exact Hb|].
  exact (proj1 (@busy_response_retries_once demo_states demo_enumerator
                  demo_retry_pending 1%nat demo_session_request demo_busy
                  no_kwargs Hb eq_refl)).
Defined.

(** C10, as stated, fails: under [exit_scan_on_first_negative_response] a
    negative response that is not a busy one leaves a pending retry in its
    slot. *)
Lemma evaluation_keeps_retry_slot_counterexample :
  ¬ @retry_slot_outcome demo_states demo_enumerator demo_retry_pending
      1%nat demo_session_request (Some demo_denied) kw_exit_on_negative.
Proof.
  unfold retry_slot_outcome. intros Hc.
  assert (Hnb : ¬ @is_busy_response demo_enumerator kw_exit_on_negative
                    demo_denied) by (by intros (_ & _ & ?)).
  specialize (Hc Hnb). vm_compute in Hc. done.
Qed.

(** The theorem at work: a negative response that is not a busy one, under
    the default options, empties the slot. *)
Lemma evaluation_clears_retry_slot_witness :
  (∀ r, Some demo_denied = Some r →
        ¬ @exits_early demo_enumerator no_kwargs r)
  ∧ @retry_slot_outcome demo_states demo_enumerator demo_retry_pending
      1%nat demo_session_request (Some demo_denied) no_kwargs.
Proof.
  assert (He : ∀ r, Some demo_denied = Some r →
                    ¬ @exits_early demo_enumerator no_kwargs r).
  { intros r [= <-] (_ & [?|[? _]]); done. }
  split; [exact He|].
  exact (@evaluation_clears_retry_slot demo_states demo_enumerator
           demo_retry_pending 1%nat demo_session_request (Some demo_denied)
           no_kwargs He).
Defined.

(** ** Edge discovery *)

Section edge_facts.
Context `{EcuStateOps}.
Implicit Types (self : ServiceEnumerator).

(** C6. [get_new_edge] returns the edge (a, b) exactly when the most
    recently stored result has a state-modifying response that moves its
    state a to a different state b; it then records the request of that
    result for the edge and changes nothing else. In every other case (no
    result, no response, a response that is not state-modifying, or one that
    leaves the state where it was) it returns nothing and the enumerator,
    its record of edges included, is as before. *)
Theorem get_new_edge_spec self :
  (∀ a b, (get_new_edge self).2 = Some (a, b)
          ↔ ∃ rq, last_result_moves self a b rq) ∧
  (∀ a b rq, last_result_moves self a b rq →
     (get_new_edge self).1 =
       set_edge_requests (<[(a, b) := rq]> (_edge_requests self)) self
     ∧ _edge_requests (get_new_edge self).1 !! (a, b) = Some rq) ∧
  ((get_new_edge self).2 = None → (get_new_edge self).1 = self).
Proof.
  unfold get_new_edge, last_result_moves.
  destruct (last (_results self)) as [r|] eqn:Hlast.
  2:{ split_and!; [|by intros a b rq (? & ? & ? & _)|done].
      intros a b. split; [done|]. by intros (rq & ? & ? & ? & _). }
  destruct (resp r) as [rp|] eqn:Hresp.
  2:{ split_and!; [| |done].
      - intros a b. split; [done|].
        intros (rq & r' & rp & [= <-] & ? & _). congruence.
      - intros a b rq (r' & rp & [= <-] & ? & _). congruence. }
  destruct (is_modifier_pkt rp) eqn:Hmod.
  2:{ split_and!; [| |done].
      - intros a b. split; [done|].
        intros (rq & r' & rp' & [= <-] & ? & ? & _). congruence.
      - intros a b rq (r' & rp' & [= <-] & ? & ? & _). congruence. }
  destruct (decide (get_modified_ecu_state rp (req r) (state r) = state r))
    as [Hsame|Hdiff]; simpl.
  - split_and!; [| |done].
    + intros a b. split; [done|].
      intros (rq & r' & rp' & [= <-] & ? & _ & <- & <- & <- & Hne).
      congruence.
    + intros a b rq (r' & rp' & [= <-] & ? & _ & <- & <- & <- & Hne).
      congruence.
  - split_and!; [| |done].
    + intros a b. split.
      * intros [= <- <-]. exists (req r), r, rp. by split_and!.
      * intros (rq & r' & rp' & [= <-] & Hrp & _ & <- & <- & <- & Hne).
        congruence.
    + intros a b rq (r' & rp' & [= <-] & Hrp & _ & <- & <- & <- & Hne).
      assert (rp' = rp) as -> by congruence.
      split; [done|]. simpl. by rewrite lookup_insert_eq.
Qed.
End edge_facts.

(** ** Adaptive blacklist *)

(** The quotient test, cleared of its division. *)
Lemma over_30_percent_spec (n t : nat) :
  (0 < t)%nat → over_30_percent n t = true ↔ (3 * t < 10 * n)%nat.
Proof.
  intros Ht. unfold over_30_percent. rewrite Qltb_lt.
  destruct t as [|t]; [lia|].
  unfold Qlt, Qdiv, Qmult, Qinv, inject_Z. simpl.
  rewrite Z.mul_1_r, Pos.mul_1_l. lia.
Qed.

(** Filters that agree on the items of a list give the same list. *)
Lemma filter_ext_in {A} (P Q : A → Prop) `{∀ x, Decision (P x)}
    `{∀ x, Decision (Q x)} (l : list A) :
  (∀ x, x ∈ l → P x ↔ Q x) → filter P l = filter Q l.
Proof.
  induction l as [|x l IH]; intros Hpq; [done|].
  rewrite !filter_cons.
  assert (Hx : P x ↔ Q x) by (apply Hpq; left).
  rewrite IH by (intros y Hy; apply Hpq; by right).
  destruct (decide (P x)), (decide (Q x)); tauto.
Qed.

Lemma elem_of_list_remove_first_ne (x y : Z) (l : list Z) :
  x ≠ y → x ∈ list_remove_first y l ↔ x ∈ l.
Proof.
  intros Hne. induction l as [|z l IH]; simpl; [done|].
  destruct (decide (y = z)) as [<-|Hyz].
  - rewrite elem_of_cons. split; [by right|]. by intros [?|?].
  - by rewrite !elem_of_cons, IH.
Qed.

Lemma list_remove_first_app (y : Z) (l1 l2 : list Z) :
  y ∈ l1 → list_remove_first y (l1 ++ l2) = list_remove_first y l1 ++ l2.
Proof.
  induction l1 as [|z l1 IH]; simpl.
  - by intros ?%elem_of_nil.
  - destruct (decide (y = z)) as [<-|Hyz]; [done|].
    intros [?|Hin]%elem_of_cons; [done|]. by rewrite IH.
Qed.

Lemma elem_of_list_remove_first_NoDup (x y : Z) (l : list Z) :
  NoDup l → x ∈ list_remove_first y l ↔ x ∈ l ∧ x ≠ y.
Proof.
  induction 1 as [|z l Hz Hnd IH]; simpl.
  - split; [by intros ?%elem_of_nil | by intros [?%elem_of_nil _]].
  - destruct (decide (y = z)) as [<-|Hyz].
    + rewrite elem_of_cons. split; [|by intros [[?|?] ?]].
      intros Hx. split; [by right|]. by intros ->.
    + rewrite !elem_of_cons, IH. split.
      * intros [->|[? ?]]; [by split; [left|]|by split; [right|]].
      * intros [[->|?] ?]; [by left|by right].
Qed.

Lemma list_remove_first_NoDup (y : Z) (l : list Z) :
  NoDup l → NoDup (list_remove_first y l).
Proof.
  induction 1 as [|z l Hz Hnd IH]; simpl; [constructor|].
  destruct (decide (y = z)); [done|]. constructor; [|done].
  rewrite elem_of_list_remove_first_NoDup by done. tauto.
Qed.

(** One round, on a blacklist split into what is left of the old one, [R],
    and what was appended, [A]: the code is removed from [R], or appended to
    [A], or nothing happens. *)
Lemma blacklist_round_spec total R A c n :
  (0 < total)%nat → c ∉ A →
  blacklist_round total (R ++ A) (c, n) =
    if decide (c ∈ R ∧ (n < 10)%nat) then list_remove_first c R ++ A
    else if decide ((c ∉ R) ∧ (30 < n)%nat ∧ (3 * total < 10 * n)%nat)
         then R ++ A ++ [c] else R ++ A.
Proof.
  intros Htot HcA. unfold blacklist_round.
  destruct (decide (c ∈ R)) as [HcR|HcR].
  - assert (HcRA : c ∈ R ++ A) by (apply elem_of_app; by left).
    rewrite (bool_decide_eq_true_2 (c ∈ R ++ A)) by done. cbn [negb andb].
    rewrite (bool_decide_eq_true_2 (c ∈ R ++ A)) by done.
    cbn [andb]. destruct (decide (n < 10)%nat) as [Hn|Hn].
    + rewrite bool_decide_eq_true_2, decide_True by done.
      by apply list_remove_first_app.
    + rewrite bool_decide_eq_false_2 by done.
      rewrite decide_False by tauto. by rewrite decide_False by tauto.
  - assert (HcRA : c ∉ R ++ A) by (rewrite elem_of_app; tauto).
    rewrite (decide_False (P := c ∈ R ∧ _)) by tauto.
    rewrite (bool_decide_eq_false_2 (c ∈ R ++ A)) by done. cbn [negb andb].
    destruct (decide (30 < n)%nat) as [Hn|Hn].
    + rewrite (bool_decide_eq_true_2 (30 < n)%nat) by done.
      destruct (decide (3 * total < 10 * n)%nat) as [Hp|Hp].
      * rewrite (proj2 (over_30_percent_spec n total Htot)) by done.
        rewrite (bool_decide_eq_true_2 (c ∈ (R ++ A) ++ [c]))
          by (apply elem_of_app; right; left).
        rewrite (bool_decide_eq_false_2 (n < 10)%nat) by lia. cbn [andb].
        rewrite decide_True by done. by rewrite <- app_assoc.
      * assert (over_30_percent n total = false) as ->.
        { apply not_true_iff_false. by rewrite over_30_percent_spec. }
        rewrite (bool_decide_eq_false_2 (c ∈ R ++ A)) by done. cbn [andb].
        by rewrite decide_False by tauto.
    + rewrite (bool_decide_eq_false_2 (30 < n)%nat) by done. cbn [andb].
      rewrite (bool_decide_eq_false_2 (c ∈ R ++ A)) by done. cbn [andb].
      by rewrite decide_False by tauto.
Qed.

(** All rounds, for items with distinct codes none of which was appended
    before. *)
Lemma blacklist_rounds total items R A :
  (0 < total)%nat → NoDup items.*1 → (∀ c, c ∈ items.*1 → c ∉ A) →
  fold_left (blacklist_round total) items (R ++ A) =
    remove_each (removed_codes R items) R
      ++ A ++ appended_codes R total items.
Proof.
  intros Htot. revert R A. induction items as [|[c n] items IH];
    intros R A Hnd Hfresh.
  { cbn. by rewrite app_nil_r. }
  rewrite fmap_cons in Hnd, Hfresh. cbn [fst] in Hnd, Hfresh.
  apply NoDup_cons in Hnd as [Hc Hnd].
  assert (HcA : c ∉ A) by (apply Hfresh; left).
  assert (Hfresh' : ∀ c', c' ∈ items.*1 → c' ∉ A)
    by (intros c' Hc'; apply Hfresh; by right).
  cbn [fold_left]. rewrite blacklist_round_spec by done.
  unfold appended_codes, removed_codes. rewrite !filter_cons. cbn [fst snd].
  fold (appended_codes R total items). fold (removed_codes R items).
  destruct (decide (c ∈ R ∧ (n < 10)%nat)) as [[HcR Hn]|Hrem].
  - rewrite decide_False by tauto. rewrite fmap_cons. cbn [fst].
    rewrite IH by done. unfold remove_each at 2. cbn [foldl].
    fold (remove_each (removed_codes R items) (list_remove_first c R)).
    assert (Hsame : ∀ it : Z * nat, it ∈ items →
              it.1 ∈ list_remove_first c R ↔ it.1 ∈ R).
    { intros it Hit. apply elem_of_list_remove_first_ne. intros Heq.
      apply Hc. rewrite <- Heq. by apply list_elem_of_fmap_2. }
    unfold appended_codes, removed_codes.
    rewrite (filter_ext_in
               (λ it : Z * nat,
                  it.1 ∈ list_remove_first c R ∧ (it.2 < 10)%nat)
               (λ it, it.1 ∈ R ∧ (it.2 < 10)%nat) items).
    2:{ intros it Hit. by rewrite (Hsame it Hit). }
    rewrite (filter_ext_in
               (λ it : Z * nat,
                  (it.1 ∉ list_remove_first c R) ∧ (30 < it.2)%nat
                  ∧ (3 * total < 10 * it.2)%nat)
               (λ it, (it.1 ∉ R) ∧ (30 < it.2)%nat
                      ∧ (3 * total < 10 * it.2)%nat) items).
    2:{ intros it Hit. by rewrite (Hsame it Hit). }
    done.
  - destruct (decide ((c ∉ R) ∧ (30 < n)%nat ∧ (3 * total < 10 * n)%nat))
      as [Happ|Happ].
    + rewrite fmap_cons. cbn [fst]. rewrite IH; [|done|].
      * by rewrite <- !app_assoc.
      * intros c' Hc' [?| ->%list_elem_of_singleton]%elem_of_app;
          [by eapply Hfresh'|done].
    + by rewrite IH.
Qed.

Lemma dict_get_elem_of {K V} `{EqDecision K} (d : list (K * V)) k v :
  NoDup (dict_keys d) → (k, v) ∈ d ↔ dict_get k d = Some v.
Proof.
  unfold dict_keys. induction d as [|[k' v'] d IH]; intros Hnd.
  - split; [by intros ?%elem_of_nil | done].
  - rewrite fmap_cons in Hnd. apply NoDup_cons in Hnd as [Hk Hnd].
    cbn [dict_get]. rewrite elem_of_cons, (IH Hnd).
    destruct (decide (k = k')) as [->|Hne].
    + split; [|intros [= ->]; by left].
      intros [[= ->]|Hget]; [done|]. exfalso. apply Hk.
      apply dict_get_keys. by eexists.
    + split; [|by right]. intros [[= ? ?]|?]; done.
Qed.

Lemma occurrences_cons c x codes :
  occurrences c (x :: codes) =
    ((if decide (x = c) then 1 else 0) + occurrences c codes)%nat.
Proof.
  unfold occurrences. rewrite filter_cons. by destruct (decide (x = c)).
Qed.

Lemma nrc_count_get codes d c :
  default O (dict_get c (fold_left nrc_count_incr codes d)) =
    (default O (dict_get c d) + occurrences c codes)%nat.
Proof.
  revert d. induction codes as [|x codes IH]; intros d.
  - cbn. unfold occurrences. cbn. lia.
  - cbn [fold_left]. rewrite IH, occurrences_cons. unfold nrc_count_incr.
    rewrite dict_get_set. destruct (decide (x = c)) as [->|Hne]; simpl; lia.
Qed.

Lemma nrc_count_pos codes d :
  (∀ c n, dict_get c d = Some n → (0 < n)%nat) →
  ∀ c n, dict_get c (fold_left nrc_count_incr codes d) = Some n → (0 < n)%nat.
Proof.
  revert d. induction codes as [|x codes IH]; intros d Hd; [done|].
  cbn [fold_left]. apply IH. intros c n. unfold nrc_count_incr.
  rewrite dict_get_set. destruct (decide (x = c)).
  - intros [= <-]. lia.
  - apply Hd.
Qed.

Lemma nrc_count_NoDup codes d :
  NoDup (dict_keys d) → NoDup (dict_keys (fold_left nrc_count_incr codes d)).
Proof.
  revert d. induction codes as [|x codes IH]; intros d Hd; [done|].
  cbn [fold_left]. apply IH. by apply dict_keys_NoDup_set.
Qed.

(** The dictionary of counts holds every code that occurs, with the number
    of its occurrences, and nothing else. *)
Lemma nrc_count_spec codes c n :
  dict_get c (fold_left nrc_count_incr codes []) = Some n
  ↔ n = occurrences c codes ∧ (0 < n)%nat.
Proof.
  pose proof (nrc_count_get codes [] c) as Hget. cbn in Hget.
  split.
  - intros Hn. rewrite Hn in Hget. split; [done|].
    by apply (nrc_count_pos codes [] (λ _ _ H, ltac:(done)) c n).
  - intros [-> Hpos].
    destruct (dict_get c (fold_left nrc_count_incr codes [])); simpl in *.
    + by subst.
    + lia.
Qed.

Lemma elem_of_remove_each (removed l : list Z) c :
  NoDup l → c ∈ remove_each removed l ↔ c ∈ l ∧ c ∉ removed.
Proof.
  unfold remove_each. revert l. induction removed as [|x removed IH];
    intros l Hnd; cbn [foldl].
  - split; [intros ?; split; [done|apply not_elem_of_nil] | by intros [? _]].
  - rewrite IH by by apply list_remove_first_NoDup.
    rewrite elem_of_list_remove_first_NoDup by done.
    rewrite not_elem_of_cons. tauto.
Qed.

Section blacklist_facts.
Context `{EcuStateOps} `{EnumeratorOps}.
Implicit Types (self : ServiceEnumerator).

Lemma nrc_dict_of_codes (nrs : list Packet) :
  nrc_dict_of nrs =
    fold_left nrc_count_incr (_get_negative_response_code <$> nrs) [].
Proof.
  unfold nrc_dict_of. generalize (@nil (Z * nat)).
  induction nrs as [|p nrs IH]; intros d; [done|]. cbn. apply IH.
Qed.

(** The codes that [_prepare_negative_response_blacklist] counts are the
    codes of the negative responses among the results. *)
Lemma negative_codes_counted self :
  _get_negative_response_code <$> omap resp (results_with_negative_response self)
    = negative_codes self
  ∧ length (results_with_negative_response self)
    = length (negative_codes self).
Proof.
  unfold results_with_negative_response, negative_codes.
  induction (_results self) as [|r l [IH1 IH2]]; [done|].
  rewrite filter_cons.
  destruct (decide (has_negative_response r)) as [Hd|Hd];
    unfold has_negative_response, packet_truth, is_negative in Hd;
    cbn [omap list_omap]; destruct (resp r) as [p|] eqn:Hr;
    cbn [andb] in Hd; try done.
  - apply Is_true_true in Hd. rewrite Hd, fmap_cons. cbn [length].
    by rewrite IH1, IH2.
  - apply Is_true_false in Hd. by rewrite Hd.
Qed.

(** C5. One run of [_prepare_negative_response_blacklist] over the negative
    responses among the stored results. The blacklist afterwards is the one
    before, with one [remove] for each code of [removed] and the codes of
    [appended] added at its end, where a code is in [appended] if and only
    if it was not on the blacklist, occurs more than 30 times and more often
    than 30% of the number of all negative responses, and a code is in
    [removed] if and only if it was on the blacklist, occurs at least once
    and occurs fewer than 10 times. For a blacklist without repetitions this
    settles membership afterwards. The stored results and the interned
    packets are as before. *)
Theorem blacklist_recomputation self :
  let bl := _negative_response_blacklist self in
  let codes := negative_codes self in
  let self' := _prepare_negative_response_blacklist self in
  ∃ appended removed,
    _negative_response_blacklist self' = remove_each removed bl ++ appended
    ∧ NoDup appended ∧ NoDup removed
    ∧ (∀ c, c ∈ appended ↔
         (c ∉ bl) ∧ (30 < occurrences c codes)%nat
         ∧ (3 * length codes < 10 * occurrences c codes)%nat)
    ∧ (∀ c, c ∈ removed ↔
         c ∈ bl ∧ (1 ≤ occurrences c codes)%nat
         ∧ (occurrences c codes < 10)%nat)
    ∧ (NoDup bl → ∀ c, c ∈ _negative_response_blacklist self' ↔
         (c ∈ bl ∧ c ∉ removed) ∨ c ∈ appended)
    ∧ _results self' = _results self
    ∧ __result_packets self' = __result_packets self.
Proof.
  cbv zeta.
  destruct (negative_codes_counted self) as [Hcodes Hlen].
  remember (negative_codes self) as codes eqn:Ecodes.
  remember (_negative_response_blacklist self) as bl eqn:Ebl.
  set (items := fold_left nrc_count_incr codes []).
  assert (Hbl : _negative_response_blacklist
                  (_prepare_negative_response_blacklist self)
                = fold_left (blacklist_round (length codes)) items bl).
  { subst items. unfold _prepare_negative_response_blacklist.
    cbn. by rewrite nrc_dict_of_codes, Hcodes, Hlen, Ebl. }
  assert (Hnd : NoDup items.*1).
  { apply (nrc_count_NoDup codes []). constructor. }
  assert (Hitems : ∀ c n, (c, n) ∈ items ↔
            n = occurrences c codes ∧ (0 < n)%nat).
  { intros c n. rewrite (dict_get_elem_of items c n Hnd).
    apply nrc_count_spec. }
  assert (Hfinal : fold_left (blacklist_round (length codes)) items bl
                   = remove_each (removed_codes bl items) bl
                       ++ appended_codes bl (length codes) items).
  { destruct (decide (codes = [])) as [Hc|Hc].
    - subst items. rewrite Hc. cbn. by rewrite app_nil_r.
    - rewrite <- (app_nil_r bl) at 1.
      rewrite blacklist_rounds; [done| |done|].
      + destruct codes; [done|cbn; lia].
      + intros c _. apply not_elem_of_nil. }
  exists (appended_codes bl (length codes) items), (removed_codes bl items).
  split_and!.
  - by rewrite Hbl.
  - unfold appended_codes.
    apply (sublist_NoDup _ _ Hnd), fmap_sublist, sublist_filter.
  - unfold removed_codes.
    apply (sublist_NoDup _ _ Hnd), fmap_sublist, sublist_filter.
  - intros c. unfold appended_codes. rewrite list_elem_of_fmap. split.
    + intros ([c' n] & -> & [(Hc & Hn & Hp) [-> Hpos]%Hitems]%list_elem_of_filter).
      done.
    + intros (Hc & Hn & Hp). exists (c, occurrences c codes).
      split; [done|]. apply list_elem_of_filter. split; [done|].
      apply Hitems. split; [done|lia].
  - intros c. unfold removed_codes. rewrite list_elem_of_fmap. split.
    + intros ([c' n] & -> & [(Hc & Hn) [-> Hpos]%Hitems]%list_elem_of_filter).
      cbn in *. split_and!; [done|lia|done].
    + intros (Hc & Hn & Hp). exists (c, occurrences c codes).
      split; [done|]. apply list_elem_of_filter. split; [done|].
      apply Hitems. split; [done|lia].
  - intros Hbnd c. rewrite Hbl, Hfinal, elem_of_app.
    by rewrite elem_of_remove_each.
  - done.
  - done.
Qed.
End blacklist_facts.

(** ** The execution loop *)

Section execution_facts.
Context `{EcuStateOps} `{EnumeratorOps} `{Transport}.
Implicit Types (self : ServiceEnumerator) (st : EcuState) (kw : Kwargs)
  (w : World) (it : Chain).

(** Asking the stream for a request changes nothing but the registered
    iterators. *)
Lemma chain_next_frame self it rq self1 it1 :
  chain_next self it = Some (rq, self1, it1) →
  (∃ m, self1 = set_request_iterators m self)
  ∧ chain_initial it1 = chain_initial it.
Proof.
  unfold chain_next. destruct (chain_retry it) as [|p rest].
  - destruct (_request_iterators self !! chain_initial it) as [i|]; [|done].
    cbn. destruct (iter_next i) as [[p i']|]; [|done]. cbn.
    intros [= <- <- <-]. split; [by eexists|done].
  - intros [= <- <- <-]. split; [|done].
    exists (_request_iterators self). by destruct self.
Qed.



(** [_store_result] never fails: it appends one result that holds the
    interned packets, and touches nothing but the table and the results. *)
Lemma _store_result_appends self st rq res :
  ∃ self',
    _store_result self st rq res = Some self' ∧
    recorded_in self self' st rq res ∧
    _request_iterators self' = _request_iterators self ∧
    _retry_pkt self' = _retry_pkt self ∧
    _state_completed self' = _state_completed self.
Proof.
  unfold _store_result, recorded_in.
  set (t1 := if negb (dict_contains (raw rq) (__result_packets self))
             then dict_set (raw rq) rq (__result_packets self)
             else __result_packets self).
  assert (Hintern : ∀ (t : list (list byte * Packet)) p k c,
            dict_get k t = Some c →
            dict_get k (if negb (dict_contains (raw p) t)
                        then dict_set (raw p) p t else t) = Some c).
  { intros t p k c Hk. unfold dict_contains.
    destruct (dict_get (raw p) t) eqn:E; [done|]. cbn.
    rewrite dict_get_set. destruct (decide (raw p = k)); congruence. }
  assert (Hself : ∀ (t : list (list byte * Packet)) p,
            is_Some (dict_get (raw p)
                       (if negb (dict_contains (raw p) t)
                        then dict_set (raw p) p t else t))).
  { intros t p. unfold dict_contains.
    destruct (dict_get (raw p) t) eqn:E; cbn.
    - rewrite E. by eexists.
    - rewrite dict_get_set_eq. by eexists. }
  destruct (Hself (__result_packets self) rq) as [c1 Hc1]. fold t1 in Hc1.
  destruct res as [r|]; cbn.
  - destruct (Hself t1 r) as [c2 Hc2].
    rewrite (Hintern t1 r _ _ Hc1). cbn. rewrite Hc2. cbn.
    eexists. split; [done|]. cbn. split; [|done].
    eexists. split; [done|]. cbn.
    split_and!; [done|by apply Hintern| |done|done]. by exists c2.
  - rewrite Hc1. cbn. eexists. split; [done|]. cbn. split; [|done].
    eexists. split; [done|]. by cbn.
Qed.

(** The evaluation touches the retry slots and the completion marks
    only. *)
Lemma _evaluate_response_frame self st rq res kw :
  let self' := (_evaluate_response self st rq res kw).1 in
  _results self' = _results self ∧
  __result_packets self' = __result_packets self ∧
  _request_iterators self' = _request_iterators self.
Proof.
  unfold _evaluate_response. destruct res as [r|]; [|done].
  repeat match goal with
         | |- context [if ?b then _ else _] => destruct b
         | |- context [match retry_slot ?s ?t with _ => _ end] =>
             destruct (retry_slot s t)
         end; cbn; unfold retry_touch;
    try destruct (_retry_pkt self !! st); done.
Qed.

Lemma recorded_in_frame self a b st rq res :
  recorded_in self a st rq res →
  _results b = _results a → __result_packets b = __result_packets a →
  recorded_in self b st rq res.
Proof. unfold recorded_in. intros Hr -> ->. exact Hr. Qed.

(** A round whose exchange ends with a response or a timeout, on a
    transport that is not closed afterwards, stores the result and then
    evaluates the response. *)
Lemma execute_round_answered self w st rq
    (timeout execution_time start_time : Q) kw w' res :
  sr1 w rq timeout = (w', inr res) → closed w' = false →
  let round :=
    execute_round self w st rq timeout execution_time start_time kw in
  ∃ stored,
    _store_result self st rq res = Some stored ∧
    recorded_in self stored st rq res ∧
    round_self round = (_evaluate_response stored st rq res kw).1 ∧
    recorded_in self (round_self round) st rq res.
Proof.
  intros Hsr Hcl. cbv zeta. unfold execute_round. rewrite Hsr, Hcl.
  destruct (_store_result_appends self st rq res)
    as (stored & -> & Hrec & _).
  exists stored. split; [done|]. split; [done|].
  destruct (_evaluate_response_frame stored st rq res kw) as (Hr & Ht & _).
  destruct (_evaluate_response stored st rq res kw) as [self2 stop].
  cbn in Hr, Ht |- *.
  assert (round_self
            (if stop then Leave self2 w' StoppedByEvaluation
             else let '(w0, now) := time_time w' in
                  if Qltb (start_time + execution_time) now
                  then Leave self2 (time_time w0).1 TimeExceeded
                  else Next self2 w0) = self2) as ->.
  { destruct stop; [done|]. destruct (time_time w') as [w0 now].
    by destruct (Qltb (start_time + execution_time) now). }
  split; [done|]. by eapply recorded_in_frame.
Qed.

(** A round only ever adds to the stored results, and leaves the registered
    iterators alone. *)
Lemma execute_round_frame self w st rq
    (timeout execution_time start_time : Q) kw :
  let self' :=
    round_self
      (execute_round self w st rq timeout execution_time start_time kw) in
  _results self `prefix_of` _results self' ∧
  _request_iterators self' = _request_iterators self.
Proof.
  cbv zeta. unfold execute_round.
  destruct (sr1 w rq timeout) as [w' [e|res]] eqn:Hsr.
  - destruct (caught e); [|done].
    destruct (retry_slot self st); cbn; unfold retry_touch;
      by destruct (_retry_pkt self !! st).
  - destruct (closed w') eqn:Hcl; [done|].
    destruct (execute_round_answered self w st rq timeout execution_time
                start_time kw w' res Hsr Hcl)
      as (stored & Hst & _ & Hround & (r & Hr & _)).
    unfold execute_round in Hround, Hr. rewrite Hsr, Hcl in Hround, Hr.
    split; [rewrite Hr; by apply prefix_app_r|].
    rewrite Hround.
    destruct (_evaluate_response_frame stored st rq res kw) as (_ & _ & ->).
    destruct (_store_result_appends self st rq res)
      as (stored' & Hst' & _ & Hreg & _).
    by simplify_eq.
Qed.

(** A round does not leave the loop as if the stream had ended. *)
Lemma execute_round_not_finished self w st rq
    (timeout execution_time start_time : Q) kw self' w' :
  execute_round self w st rq timeout execution_time start_time kw
    ≠ Leave self' w' IteratorFinished.
Proof.
  unfold execute_round. destruct (sr1 w rq timeout) as [w1 [e|res]].
  - destruct (caught e); [|done]. by destruct (retry_slot self st).
  - destruct (closed w1); [done|].
    destruct (_store_result self st rq res) as [stored|]; [|done].
    destruct (_evaluate_response stored st rq res kw) as [self2 stop].
    destruct stop; [done|]. destruct (time_time w1) as [w0 now].
    by destruct (Qltb (start_time + execution_time) now).
Qed.


(** When the loop ends because the stream has ended, the state is marked
    completed and the stream has indeed nothing more to give. *)
Lemma execute_loop_finished (fuel : nat) self w it st
    (timeout execution_time start_time : Q) kw final wf :
  execute_loop fuel self w it st timeout execution_time start_time kw
    = Some (final, wf, IteratorFinished) →
  has_completed final st = true
  ∧ chain_next final (mkChain [] (chain_initial it)) = None.
Proof.
  revert self w it. induction fuel as [|fuel IH]; intros self w it; [done|].
  cbn [execute_loop].
  destruct (chain_next self it) as [[[rq self1] it1]|] eqn:Hnext.
  - destruct (chain_next_frame _ _ _ _ _ Hnext) as [_ Hinit].
    destruct (execute_round self1 w st rq _ _ _ kw)
      as [self2 w2|self2 w2 e2] eqn:Hround.
    + intros Hloop%IH. by rewrite <- Hinit.
    + intros [= -> -> ->]. by apply execute_round_not_finished in Hround.
  - intros [= <- <-]. split.
    + unfold has_completed. cbn. by rewrite dict_get_set_eq.
    + clear IH. unfold chain_next in *. cbn.
      destruct (chain_retry it); [|done].
      destruct (_request_iterators self !! chain_initial it) as [i|];
        [|done]. cbn in *.
      by destruct (iter_next i) as [[p i']|].
Qed.

(** Fuel for one more look than the stream has requests is enough: the
    loop then comes to an end, one way or another. *)
Lemma execute_loop_enough_fuel (n : nat) self w it st
    (timeout execution_time start_time : Q) kw :
  stream_bound self it n →
  is_Some
    (execute_loop (S n) self w it st timeout execution_time start_time kw).
Proof.
  revert self w it. induction n as [|n IH]; intros self w it Hb;
    cbn [execute_loop];
    destruct (chain_next self it) as [[[rq self1] it1]|] eqn:Hnext;
    try by eexists.
  - exfalso. unfold stream_bound, chain_next in *.
    destruct (chain_retry it) as [|p rest].
    2:{ destruct (_request_iterators self !! chain_initial it);
          cbn in *; [destruct Hb as (? & _ & ?)|]; lia. }
    destruct (_request_iterators self !! chain_initial it) as [i|]; [|done].
    destruct Hb as (k & Hk & Hle). cbn in *. assert (k = O) as -> by lia.
    rewrite Nat.add_0_r in Hk. unfold iter_next in Hnext.
    by rewrite Hk in Hnext.
  - pose proof (execute_round_frame self1 w st rq timeout execution_time
                  start_time kw) as [_ Hreg].
    destruct (execute_round self1 w st rq _ _ _ kw) as [self2 w2|self2 w2 e2];
      [|by eexists].
    cbn in Hreg. apply IH. unfold stream_bound, chain_next in *.
    rewrite Hreg. clear Hreg IH.
    destruct (chain_retry it) as [|p rest] eqn:Hretry.
    + destruct (_request_iterators self !! chain_initial it) as [i|] eqn:Hi;
        [|done]. cbn in Hnext. unfold iter_next in Hnext.
      destruct (it_gen i (it_pos i)) as [p|] eqn:Hg; [|done].
      cbn in Hnext. injection Hnext as <- <- <-. cbn.
      rewrite lookup_insert_eq, Hretry. cbn.
      destruct Hb as (k & Hk & Hle). destruct k as [|k].
      * rewrite Nat.add_0_r in Hk. congruence.
      * exists k. split; [|cbn in Hle; lia].
        by rewrite Nat.add_succ_r in Hk.
    + injection Hnext as <- <- <-. cbn.
      destruct (_request_iterators self !! chain_initial it) as [i|].
      * destruct Hb as (k & Hk & Hle). exists k. split; [done|].
        cbn in Hle. lia.
      * cbn in Hb. lia.
Qed.


(** The stream of a call, and the enumerator once it is set up. *)
(** The stream of a call, unfolded. *)
Lemma __get_request_iterator_unfold self st kw :
  __get_request_iterator self st kw =
    (__get_initial_request_iterator (retry_touch st self) st kw,
     mkChain (retry_items (retry_slot self st)) st).
Proof.
  unfold __get_request_iterator, __get_retry_iterator, retry_items.
  by destruct (retry_slot self st) as [[p|l]|].
Qed.

Lemma retry_touch_iterators self st :
  _request_iterators (retry_touch st self) = _request_iterators self.
Proof. unfold retry_touch. by destruct (_retry_pkt self !! st). Qed.

(** The iterators once the stream of a call is set up. *)
Lemma __get_initial_request_iterator_lookup self st kw :
  _request_iterators
    (__get_initial_request_iterator (retry_touch st self) st kw)
  = <[st := default (iter (_get_initial_requests kw))
              (_request_iterators self !! st)]> (_request_iterators self).
Proof.
  unfold __get_initial_request_iterator. rewrite retry_touch_iterators.
  destruct (_request_iterators self !! st) as [i|] eqn:Hi; cbn.
  - by rewrite retry_touch_iterators, insert_id.
  - done.
Qed.

(** Setting up the stream changes the iterators and at most adds an empty
    retry slot. *)
Lemma __get_initial_request_iterator_frame self st kw :
  let s1 := __get_initial_request_iterator (retry_touch st self) st kw in
  _results s1 = _results self ∧
  __result_packets s1 = __result_packets self ∧
  _state_completed s1 = _state_completed self ∧
  ∀ s, retry_slot s1 s = retry_slot self s.
Proof.
  cbv zeta.
  assert (Hslot : ∀ s, retry_slot
                         (__get_initial_request_iterator (retry_touch st self)
                            st kw) s = retry_slot self s).
  { intros s. rewrite <- (retry_slot_touch self st s).
    unfold __get_initial_request_iterator.
    by destruct (_request_iterators (retry_touch st self) !! st). }
  unfold __get_initial_request_iterator, retry_touch in *.
  destruct (_retry_pkt self !! st);
    destruct (_request_iterators _ !! st); by split_and!.
Qed.

(** A state with nothing to send: a call looks at the stream once and
    ends. *)
Lemma execute_nothing_to_send (fuel : nat) self w st kw :
  nothing_to_send self st kw →
  ∃ final,
    execute (S fuel) self w st kw
      = Some (final, (time_time w).1, IteratorFinished) ∧
    has_completed final st = true ∧
    _results final = _results self.
Proof.
  intros [Hslot Hgen]. unfold execute.
  rewrite __get_request_iterator_unfold, Hslot. cbn [retry_items].
  destruct (time_time w) as [w1 start_time]. cbn [fst execute_loop].
  unfold chain_next. cbn [chain_retry chain_initial].
  rewrite __get_initial_request_iterator_lookup, lookup_insert_eq. cbn.
  rewrite Hgen. cbn.
  destruct (__get_initial_request_iterator_frame self st (kwargs_rest kw))
    as (Hr & _).
  eexists. split; [done|]. split; [|done].
  unfold has_completed. cbn. by rewrite dict_get_set_eq.
Qed.

(** A round goes on exactly when it has none of the early exits. *)
Lemma execute_round_goes_on self w st rq
    (timeout execution_time start_time : Q) kw self' w' :
  execute_round self w st rq timeout execution_time start_time kw
    = Next self' w'
  ↔ round_goes_on self w st rq timeout execution_time start_time kw self' w'.
Proof.
  unfold execute_round, round_goes_on. split.
  - destruct (sr1 w rq timeout) as [w1 [e|res]] eqn:Hsr.
    { destruct (caught e); [|done]. by destruct (retry_slot self st). }
    destruct (closed w1) eqn:Hcl; [done|].
    destruct (_store_result self st rq res) as [stored|] eqn:Hst; [|done].
    destruct (_evaluate_response stored st rq res kw) as [self2 stop] eqn:Hev.
    destruct stop; [done|].
    destruct (time_time w1) as [w0 now] eqn:Ht.
    destruct (Qltb (start_time + execution_time) now) eqn:Hq; [done|].
    intros [= <- <-]. by exists w1, res, stored, now.
  - intros (w1 & res & stored & now & -> & -> & -> & -> & -> & ->). done.
Qed.

(** Running the rounds finds a drained stream. *)
Lemma drain_sound (n : nat) self w it st
    (timeout execution_time start_time : Q) kw last wl :
  drain n self w it st timeout execution_time start_time kw
    = Some (last, wl) →
  stream_drained n self w it st timeout execution_time start_time kw last wl.
Proof.
  revert self w it. induction n as [|n IH]; intros self w it;
    cbn [drain stream_drained];
    destruct (chain_next self it) as [[[rq self1] it1]|]; try done.
  - by intros [= <- <-].
  - destruct (execute_round self1 w st rq _ _ _ kw) as [self2 w2|]
      eqn:Hround; [|done].
    intros Hd%IH. exists rq, self1, it1, self2, w2.
    split; [done|]. split; [by apply execute_round_goes_on|done].
Qed.

Lemma execute_drain_sound (n : nat) self w st kw last wl :
  execute_drain n self w st kw = Some (last, wl) →
  drains n self w st kw last wl.
Proof. apply drain_sound. Qed.

(** A drained stream lets the loop end by marking the state completed. *)
Lemma stream_drained_loop (n fuel : nat) self w it st
    (timeout execution_time start_time : Q) kw last wl :
  (n < fuel)%nat →
  stream_drained n self w it st timeout execution_time start_time kw last wl →
  execute_loop fuel self w it st timeout execution_time start_time kw
    = Some (set_state_completed (dict_set st true (_state_completed last))
              last, wl, IteratorFinished).
Proof.
  revert fuel self w it. induction n as [|n IH]; intros fuel self w it Hlt;
    (destruct fuel as [|fuel]; [lia|]); cbn [stream_drained execute_loop].
  - by intros (-> & -> & ->).
  - intros (rq & self1 & it1 & self2 & w2 & -> & Hround & Hrest).
    apply execute_round_goes_on in Hround. rewrite Hround.
    apply IH; [lia|done].
Qed.

(** And the loop ends that way only for a drained stream. *)
Lemma execute_loop_drained (fuel : nat) self w it st
    (timeout execution_time start_time : Q) kw final wf :
  execute_loop fuel self w it st timeout execution_time start_time kw
    = Some (final, wf, IteratorFinished) →
  ∃ (n : nat) last,
    (n < fuel)%nat ∧
    stream_drained n self w it st timeout execution_time start_time kw
      last wf ∧
    final = set_state_completed (dict_set st true (_state_completed last))
              last.
Proof.
  revert self w it. induction fuel as [|fuel IH]; intros self w it; [done|].
  cbn [execute_loop].
  destruct (chain_next self it) as [[[rq self1] it1]|] eqn:Hnext.
  - destruct (execute_round self1 w st rq _ _ _ kw)
      as [self2 w2|self2 w2 e2] eqn:Hround.
    + intros (n & last & Hlt & Hd & ->)%IH.
      exists (S n), last. split; [lia|]. split; [|done].
      cbn [stream_drained]. exists rq, self1, it1, self2, w2.
      split; [done|]. split; [by apply execute_round_goes_on|done].
    + intros [= -> -> ->]. by apply execute_round_not_finished in Hround.
  - intros [= <- <-]. exists O, self. split; [lia|]. by split.
Qed.

(** Every exchange of a drained stream is stored. *)
Lemma stream_drained_results (n : nat) self w it st
    (timeout execution_time start_time : Q) kw last wl :
  stream_drained n self w it st timeout execution_time start_time kw last wl →
  length (_results last) = (length (_results self) + n)%nat.
Proof.
  revert self w it. induction n as [|n IH]; intros self w it;
    cbn [stream_drained].
  - intros (_ & -> & _). lia.
  - intros (rq & self1 & it1 & self2 & w2 & Hnext & Hround & Hrest).
    rewrite (IH _ _ _ Hrest).
    destruct (chain_next_frame _ _ _ _ _ Hnext) as [[m ->] _].
    destruct Hround as (w1 & res & stored & now & _ & _ & Hst & Hev & _).
    destruct (_store_result_appends (set_request_iterators m self) st rq res)
      as (stored' & Hst' & (r & Hr & _) & _).
    rewrite Hst in Hst'. injection Hst' as <-.
    destruct (_evaluate_response_frame stored st rq res kw) as (Hr' & _).
    rewrite Hev in Hr'. cbn in Hr'. rewrite Hr', Hr, length_app. cbn. lia.
Qed.

(** C8. A call of [execute] that drains the request stream of its state
    without an early exit (no exchange ends with an exception, none finds
    the socket closed, no evaluation asks to stop, the time is never up)
    marks the state completed: if the stream gives [n] requests whose rounds
    all go on, a call with fuel for more than [n] looks at the stream
    returns because the stream has ended, with the state marked completed
    and all [n] exchanges stored. A call returns that way only then, and the
    iterator of the state is then at its end. In particular, for a state
    with no retry pending and no initial request left, a call with fuel for
    a single look at the stream returns that way: the world has seen the
    clock read and nothing else, no result was stored, and the state is
    marked completed. *)
Theorem finished_iterator_completes (fuel : nat) self w st kw :
  (∀ (n : nat) last wl,
     (n < fuel)%nat → drains n self w st kw last wl →
     ∃ final,
       execute fuel self w st kw = Some (final, wl, IteratorFinished) ∧
       has_completed final st = true ∧
       _results final = _results last ∧
       length (_results final) = (length (_results self) + n)%nat) ∧
  (∀ final wf,
     execute fuel self w st kw = Some (final, wf, IteratorFinished) →
     has_completed final st = true ∧
     (∀ i, _request_iterators final !! st = Some i → iter_next i = None) ∧
     ∃ (n : nat) last, (n < fuel)%nat ∧ drains n self w st kw last wf) ∧
  (nothing_to_send self st kw →
     ∃ final,
       execute (S fuel) self w st kw
         = Some (final, (time_time w).1, IteratorFinished) ∧
       has_completed final st = true ∧
       _results final = _results self).
Proof.
  split_and!.
  - intros n last wl Hlt Hd. unfold drains in Hd. unfold execute.
    destruct (__get_request_iterator self st (kwargs_rest kw))
      as [self0 it] eqn:Hstart.
    destruct (time_time w) as [w1 start_time]. cbn [fst snd] in Hd.
    rewrite (stream_drained_loop _ _ _ _ _ _ _ _ _ _ _ _ Hlt Hd).
    eexists. split; [done|]. split_and!.
    + unfold has_completed. cbn. by rewrite dict_get_set_eq.
    + done.
    + cbn. rewrite (stream_drained_results _ _ _ _ _ _ _ _ _ _ _ Hd).
      rewrite __get_request_iterator_unfold in Hstart.
      injection Hstart as <- _.
      by destruct (__get_initial_request_iterator_frame self st
                     (kwargs_rest kw)) as (-> & _).
  - intros final wf. unfold execute, drains.
    destruct (__get_request_iterator self st (kwargs_rest kw))
      as [self0 it] eqn:Hstart.
    destruct (time_time w) as [w1 start_time]. cbn [fst snd].
    intros Hloop.
    destruct (execute_loop_finished _ _ _ _ _ _ _ _ _ _ _ Hloop)
      as [Hdone Hend].
    split; [done|]. split.
    + intros i Hi. unfold chain_next in Hend.
      rewrite __get_request_iterator_unfold in Hstart.
      injection Hstart as _ <-. cbn in Hend. rewrite Hi in Hend.
      cbn in Hend. by destruct (iter_next i) as [[p i']|].
    + destruct (execute_loop_drained _ _ _ _ _ _ _ _ _ _ _ Hloop)
        as (n & last & Hlt & Hd & _). by exists n, last.
  - apply execute_nothing_to_send.
Qed.

(** ** The request stream *)











End execution_facts.


(** The theorem at work: the concrete device answers its three requests
    positively; the call makes the three exchanges and marks the state
    completed. *)
Lemma finished_iterator_completes_witness :
  ∃ last wl final,
    @drains demo_states demo_enumerator demo_transport 3
      (@__init__ demo_states) demo_cooperative 1%nat no_kwargs last wl ∧
    @execute demo_states demo_enumerator demo_transport 4
      (@__init__ demo_states) demo_cooperative 1%nat no_kwargs
      = Some (final, wl, IteratorFinished) ∧
    @has_completed demo_states final 1%nat = true ∧
    length (_results final) = 3%nat.
Proof.
  destruct (@execute_drain demo_states demo_enumerator demo_transport 3
              (@__init__ demo_states) demo_cooperative 1%nat no_kwargs)
    as [[last wl]|] eqn:Hrounds; [|by vm_compute in Hrounds].
  pose proof (@execute_drain_sound demo_states demo_enumerator
                demo_transport 3 (@__init__ demo_states) demo_cooperative
                1%nat no_kwargs last wl Hrounds) as Hd.
  destruct (proj1 (@finished_iterator_completes demo_states demo_enumerator
                     demo_transport 4 (@__init__ demo_states)
                     demo_cooperative 1%nat no_kwargs)
              3%nat last wl (le_n 4) Hd)
    as (final & Hrun & Hc & _ & Hlen).
  exists last, wl, final. split; [exact Hd|]. split; [exact Hrun|].
  split; [exact Hc|exact Hlen].
Defined.



(** ** Statistics *)

Lemma fold_min_spec (rest : list Q) (x : Q) :
  let r := fold_left (λ m y, if Qltb y m then y else m) rest x in
  (r = x ∨ r ∈ rest) ∧ (r <= x)%Q ∧ ∀ z, z ∈ rest → (r <= z)%Q.
Proof.
  revert x. induction rest as [|y rest IH]; intros x; cbn.
  - split; [by left|]. split; [apply Qle_refl|]. by intros z ?%elem_of_nil.
  - destruct (IH (if Qltb y x then y else x)) as (Hin & Hle & Hall).
    assert (Hacc : ((if Qltb y x then y else x) <= x
                    ∧ (if Qltb y x then y else x) <= y)%Q).
    { destruct (Qltb y x) eqn:E.
      - apply Qltb_lt in E. split; [by apply Qlt_le_weak|apply Qle_refl].
      - split; [apply Qle_refl|]. apply Qnot_lt_le. intros Hlt.
        apply Qltb_lt in Hlt. congruence. }
    destruct Hacc as [Hx Hy]. split; [|split].
    + destruct Hin as [->|Hin]; [|right; by right].
      destruct (Qltb y x); [right; left|by left].
    + by eapply Qle_trans.
    + intros z [->|Hz]%elem_of_cons; [by eapply Qle_trans|by apply Hall].
Qed.

Lemma fold_max_spec (rest : list Q) (x : Q) :
  let r := fold_left (λ m y, if Qltb m y then y else m) rest x in
  (r = x ∨ r ∈ rest) ∧ (x <= r)%Q ∧ ∀ z, z ∈ rest → (z <= r)%Q.
Proof.
  revert x. induction rest as [|y rest IH]; intros x; cbn.
  - split; [by left|]. split; [apply Qle_refl|]. by intros z ?%elem_of_nil.
  - destruct (IH (if Qltb x y then y else x)) as (Hin & Hle & Hall).
    assert (Hacc : (x <= (if Qltb x y then y else x)
                    ∧ y <= (if Qltb x y then y else x))%Q).
    { destruct (Qltb x y) eqn:E.
      - apply Qltb_lt in E. split; [by apply Qlt_le_weak|apply Qle_refl].
      - split; [apply Qle_refl|]. apply Qnot_lt_le. intros Hlt.
        apply Qltb_lt in Hlt. congruence. }
    destruct Hacc as [Hx Hy]. split; [|split].
    + destruct Hin as [->|Hin]; [|right; by right].
      destruct (Qltb x y); [right; left|by left].
    + by eapply Qle_trans.
    + intros z [->|Hz]%elem_of_cons; [by eapply Qle_trans|by apply Hall].
Qed.

Lemma py_min_least x rest :
  ∃ m, py_min (x :: rest) = Some m ∧ is_least m (x :: rest).
Proof.
  destruct (fold_min_spec rest x) as (Hin & Hle & Hall).
  eexists. split; [done|]. split.
  - destruct Hin as [->|Hin]; [left|by right].
  - intros z [->|Hz]%elem_of_cons; [done|by apply Hall].
Qed.

Lemma py_max_greatest x rest :
  ∃ m, py_max (x :: rest) = Some m ∧ is_greatest m (x :: rest).
Proof.
  destruct (fold_max_spec rest x) as (Hin & Hle & Hall).
  eexists. split; [done|]. split.
  - destruct Hin as [->|Hin]; [left|by right].
  - intros z [->|Hz]%elem_of_cons; [done|by apply Hall].
Qed.

Lemma py_sum_total (l : list Q) (a : Q) :
  (fold_left Qplus l a == a + total l)%Q.
Proof.
  revert a. induction l as [|x l IH]; intros a; cbn.
  - by rewrite Qplus_0_r.
  - rewrite IH. by rewrite Qplus_assoc.
Qed.

Lemma py_avg_mean x rest :
  ∃ a, py_avg (x :: rest) = Some a ∧ is_mean a (x :: rest).
Proof.
  eexists. split; [done|]. unfold is_mean, py_sum.
  rewrite py_sum_total, Qplus_0_l.
  rewrite Qmult_comm. apply Qmult_div_r.
  unfold Qeq. cbn. lia.
Qed.

Lemma filter_cons_bool {A} (f : A → bool) (x : A) (l : list A) :
  filter (λ y, f y) (x :: l) =
    if f x then x :: filter (λ y, f y) l else filter (λ y, f y) l.
Proof. rewrite filter_cons. by destruct (f x). Qed.

Section statistics_facts.
Context `{EcuStateOps} `{FloatFormat}.
Implicit Types (self : ServiceEnumerator) (data : list (ScanResult EcuState)).

Lemma time_stats_summary desc postfix (times : list Q) :
  ∃ mi ma avg,
    time_stats desc postfix times =
      [ (desc, "answertime_min" +:+ postfix, mi);
        (desc, "answertime_max" +:+ postfix, ma);
        (desc, "answertime_avg" +:+ postfix, avg) ] ∧
    summary_of times mi ma avg.
Proof.
  unfold time_stats. do 3 eexists. split; [done|].
  destruct times as [|x rest]; [done|].
  destruct (py_min_least x rest) as (m & -> & Hm).
  destruct (py_max_greatest x rest) as (M & -> & HM).
  destruct (py_avg_mean x rest) as (a & -> & Ha).
  by exists m, M, a.
Qed.

Lemma answered_count data :
  length (filter (λ r, has_response r) data) = length (omap resp data).
Proof.
  induction data as [|r data IH]; [done|].
  rewrite filter_cons_bool. unfold has_response at 1. cbn [omap list_omap].
  destruct (resp r); cbn; by rewrite IH.
Qed.

Lemma unanswered_filter data :
  filter (λ r, negb (has_response r)) data = filter (λ r, resp r = None) data.
Proof.
  induction data as [|r data IH]; [done|].
  rewrite filter_cons_bool, filter_cons, IH. unfold has_response.
  destruct (resp r); cbn; [by rewrite decide_False|by rewrite decide_True].
Qed.

Lemma answered_unanswered data :
  (length (omap resp data) + length (filter (λ r, resp r = None) data)
   = length data)%nat.
Proof.
  induction data as [|r data IH]; [done|].
  rewrite filter_cons. cbn [omap list_omap].
  destruct (resp r); [rewrite decide_False by done|rewrite decide_True by done];
    cbn [length]; lia.
Qed.

Lemma negative_count data :
  length (omap resp (filter (λ r, resp_is_negative r) data))
  = length (filter (λ p, service p = 0x7f) (omap resp data)).
Proof.
  induction data as [|r data IH]; [done|].
  rewrite filter_cons_bool. unfold resp_is_negative at 1, is_negative.
  cbn [omap list_omap]. destruct (resp r) as [p|] eqn:Hr; [|done].
  rewrite filter_cons.
  destruct (decide (service p = 0x7f)) as [Hs|Hs].
  - rewrite bool_decide_eq_true_2 by done. cbn. rewrite Hr. cbn.
    by rewrite IH.
  - rewrite bool_decide_eq_false_2 by done. done.
Qed.

Lemma answertimes_latencies (cond : ScanResult EcuState → bool)
    (P : Packet → Prop) `{∀ p, Decision (P p)} data :
  (∀ r p, resp r = Some p → cond r = true ↔ P p) →
  answertimes_if cond (filter (λ r, has_response r) data) = latencies P data.
Proof.
  intros Hcond. unfold answertimes_if, latencies.
  induction data as [|r data IH]; [done|].
  rewrite filter_cons_bool. unfold has_response at 1. cbn [omap list_omap].
  destruct (resp r) as [p|] eqn:Hr; cbn; [|done]. rewrite IH.
  destruct (resp_ts r) as [t|]; cbn; [|done].
  specialize (Hcond r p Hr).
  destruct (cond r), (decide (P p)) as [Hp|Hp]; try done; exfalso.
  - by apply Hp, Hcond.
  - by apply Hcond in Hp.
Qed.

(** C9. The statistics are one block of twelve entries for the data set
    "all", which is every stored result, followed by one such block for each
    state that [_state_completed] knows, over the results of that state. A
    block gives the number of results with a response, the number without,
    and the number of negative responses, and for each of the three latency
    populations (every response, the negative ones, the positive ones; a
    latency is response time minus request time of a result that has both)
    the least, the greatest and the mean latency as [str_round5] prints
    them, or the sentinel "-" for each of the three when the population is
    empty. *)
Theorem statistics_reported self :
  data_sets self =
    ("all", _results self)
    :: ((λ s, (state_repr s, filter (λ r, state r = s) (_results self)))
          <$> dict_keys (_state_completed self)) ∧
  _compute_statistics self =
    flat_map (λ ds, data_set_stats ds.1 ds.2) (data_sets self) ∧
  ∀ desc data,
    (length (omap resp data) + length (filter (λ r, resp r = None) data)
     = length data)%nat ∧
    ∃ mi ma avg mi_nr ma_nr avg_nr mi_pr ma_pr avg_pr,
      data_set_stats desc data =
        [ (desc, "num_answered", pretty (length (omap resp data)));
          (desc, "num_unanswered",
           pretty (length (filter (λ r, resp r = None) data)));
          (desc, "num_negative_resps",
           pretty (length (filter (λ p, service p = 0x7f)
                             (omap resp data))));
          (desc, "answertime_min", mi);
          (desc, "answertime_max", ma);
          (desc, "answertime_avg", avg);
          (desc, "answertime_min_nr", mi_nr);
          (desc, "answertime_max_nr", ma_nr);
          (desc, "answertime_avg_nr", avg_nr);
          (desc, "answertime_min_pr", mi_pr);
          (desc, "answertime_max_pr", ma_pr);
          (desc, "answertime_avg_pr", avg_pr) ] ∧
      summary_of (latencies (λ _, True) data) mi ma avg ∧
      summary_of (latencies (λ p, service p = 0x7f) data)
        mi_nr ma_nr avg_nr ∧
      summary_of (latencies (λ p, service p ≠ 0x7f) data)
        mi_pr ma_pr avg_pr.
Proof.
  split; [done|]. split.
  { unfold _compute_statistics. induction (data_sets self) as [|[d l] ds IH];
      [done|]. cbn [flat_map fst snd]. by rewrite IH. }
  intros desc data. split; [apply answered_unanswered|].
  unfold data_set_stats.
  rewrite answered_count, unanswered_filter, negative_count.
  rewrite (answertimes_latencies (λ _, true) (λ _, True)) by done.
  rewrite (answertimes_latencies resp_is_negative (λ p, service p = 0x7f)).
  2:{ intros r p Hr. unfold resp_is_negative. rewrite Hr.
      apply is_negative_true. }
  rewrite (answertimes_latencies resp_is_positive (λ p, service p ≠ 0x7f)).
  2:{ intros r p Hr. unfold resp_is_positive. rewrite Hr.
      rewrite negb_true_iff, <- not_true_iff_false. by rewrite is_negative_true. }
  destruct (time_stats_summary desc "" (latencies (λ _, True) data))
    as (mi & ma & avg & -> & Hall).
  destruct (time_stats_summary desc "_nr"
              (latencies (λ p, service p = 0x7f) data))
    as (mi_nr & ma_nr & avg_nr & -> & Hnr).
  destruct (time_stats_summary desc "_pr"
              (latencies (λ p, service p ≠ 0x7f) data))
    as (mi_pr & ma_pr & avg_pr & -> & Hpr).
  by exists mi, ma, avg, mi_nr, ma_nr, avg_nr, mi_pr, ma_pr, avg_pr.
Qed.
End statistics_facts.

(** ** More about a call of [execute] *)

Section execution_more.
Context `{EcuStateOps} `{EnumeratorOps} `{Transport}.
Implicit Types (self : ServiceEnumerator) (st : EcuState) (kw : Kwargs)
  (w : World) (it : Chain).

(** [_store_result] leaves the blacklist and the edges alone. *)
Lemma _store_result_frame self st rq res self' :
  _store_result self st rq res = Some self' →
  _negative_response_blacklist self' = _negative_response_blacklist self ∧
  _edge_requests self' = _edge_requests self.
Proof.
  unfold _store_result. intros Hs.
  destruct (dict_get (raw rq) _) in Hs; [|done]. cbn in Hs.
  destruct res as [r|]; cbn in Hs.
  - destruct (dict_get (raw r) _) in Hs; [|done]. cbn in Hs.
    by injection Hs as <-.
  - by injection Hs as <-.
Qed.

(** So does the evaluation. *)
Lemma _evaluate_response_frame' self st rq res kw :
  let self' := (_evaluate_response self st rq res kw).1 in
  _negative_response_blacklist self' = _negative_response_blacklist self ∧
  _edge_requests self' = _edge_requests self.
Proof.
  unfold _evaluate_response. destruct res as [r|]; [|done].
  repeat match goal with
         | |- context [if ?b then _ else _] => destruct b
         | |- context [match retry_slot ?s ?t with _ => _ end] =>
             destruct (retry_slot s t)
         end; cbn; unfold retry_touch;
    try destruct (_retry_pkt self !! st); done.
Qed.

(** What a round adds to the store: nothing, or one result of the state
    of the call. *)
Lemma execute_round_appends self w st rq
    (timeout execution_time start_time : Q) kw :
  let self' :=
    round_self
      (execute_round self w st rq timeout execution_time start_time kw) in
  ∃ new,
    _results self' = _results self ++ new ∧
    Forall (λ r, state r = st) new ∧ (length new ≤ 1)%nat ∧
    _negative_response_blacklist self' = _negative_response_blacklist self ∧
    _edge_requests self' = _edge_requests self.
Proof.
  cbv zeta. unfold execute_round.
  destruct (sr1 w rq timeout) as [w' [e|res]] eqn:Hsr.
  - exists []. rewrite app_nil_r.
    destruct (caught e); [|by split_and!; [..|cbn; lia|done|done]].
    destruct (retry_slot self st); cbn; unfold retry_touch;
      destruct (_retry_pkt self !! st); by split_and!; [..|cbn; lia|done|done].
  - destruct (closed w') eqn:Hcl.
    { exists []. rewrite app_nil_r. by split_and!; [..|cbn; lia|done|done]. }
    destruct (_store_result_appends self st rq res)
      as (stored & Hst & (r & Hr & Hstate & _) & _).
    rewrite Hst.
    destruct (_store_result_frame _ _ _ _ _ Hst) as [Hbl Hed].
    destruct (_evaluate_response_frame stored st rq res kw) as (Hr' & _ & _).
    destruct (_evaluate_response_frame' stored st rq res kw) as (Hbl' & Hed').
    destruct (_evaluate_response stored st rq res kw) as [self2 stop].
    cbn in Hr', Hbl', Hed'.
    assert (round_self
              (if stop then Leave self2 w' StoppedByEvaluation
               else let '(w0, now) := time_time w' in
                    if Qltb (start_time + execution_time) now
                    then Leave self2 (time_time w0).1 TimeExceeded
                    else Next self2 w0) = self2) as ->.
    { destruct stop; [done|]. destruct (time_time w') as [w0 now].
      by destruct (Qltb (start_time + execution_time) now). }
    exists [r]. rewrite Hr', Hr, Hbl', Hbl, Hed', Hed.
    split_and!; [done| |done|done|done]. by constructor.
Qed.

Lemma execute_loop_appends (fuel : nat) self w it st
    (timeout execution_time start_time : Q) kw final wf e :
  execute_loop fuel self w it st timeout execution_time start_time kw
    = Some (final, wf, e) →
  ∃ new,
    _results final = _results self ++ new ∧
    Forall (λ r, state r = st) new ∧ (length new ≤ fuel)%nat ∧
    _negative_response_blacklist final = _negative_response_blacklist self ∧
    _edge_requests final = _edge_requests self.
Proof.
  revert self w it. induction fuel as [|fuel IH]; intros self w it; [done|].
  cbn [execute_loop].
  destruct (chain_next self it) as [[[rq self1] it1]|] eqn:Hnext.
  - destruct (chain_next_frame _ _ _ _ _ Hnext) as [[m ->] _].
    destruct (execute_round_appends (set_request_iterators m self) w st rq
                timeout execution_time start_time kw)
      as (new1 & Hr1 & Hst1 & Hlen1 & Hbl1 & Hed1).
    destruct (execute_round _ w st rq _ _ _ kw) as [self2 w2|self2 w2 e2];
      cbn in Hr1, Hbl1, Hed1.
    + intros (new2 & Hr2 & Hst2 & Hlen2 & Hbl2 & Hed2)%IH.
      exists (new1 ++ new2). rewrite Hr2, Hr1, Hbl2, Hbl1, Hed2, Hed1.
      rewrite app_assoc, Forall_app, length_app.
      split_and!; [done|done|done|lia|done|done].
    + intros [= <- <- <-]. exists new1.
      split_and!; [done|done|lia|done|done].
  - intros [= <- <- <-]. exists []. rewrite app_nil_r.
    split_and!; [done|done|cbn; lia|done|done].
Qed.

(** X1. A call of [execute] only appends to the stored results: what was
    stored stays, in place; every result it adds is one of the state of the
    call; and it adds no more results than it had fuel. The blacklist and the
    requests recorded for edges are as before. *)
Theorem execute_appends_results (fuel : nat) self w st kw final wf e :
  execute fuel self w st kw = Some (final, wf, e) →
  ∃ new,
    _results final = _results self ++ new ∧
    Forall (λ r, state r = st) new ∧ (length new ≤ fuel)%nat ∧
    _negative_response_blacklist final = _negative_response_blacklist self ∧
    _edge_requests final = _edge_requests self.
Proof.
  unfold execute, __get_request_iterator, __get_retry_iterator.
  destruct (time_time w) as [w1 start_time].
  assert (Hframe : ∀ s0 : ServiceEnumerator,
            let s1 := __get_initial_request_iterator (retry_touch st s0) st
                        (kwargs_rest kw) in
            _results s1 = _results s0 ∧
            _negative_response_blacklist s1 = _negative_response_blacklist s0
            ∧ _edge_requests s1 = _edge_requests s0).
  { intros s0. cbv zeta. unfold __get_initial_request_iterator, retry_touch.
    destruct (_retry_pkt s0 !! st);
      by destruct (_request_iterators _ !! st). }
  destruct (Hframe self) as (Hr & Hbl & Hed).
  destruct (retry_slot self st) as [[p|l]|];
    intros (new & Hr' & Hrest)%execute_loop_appends;
    exists new; rewrite Hr', Hr; destruct Hrest as (? & ? & -> & ->);
    by rewrite Hbl, Hed.
Qed.

(** X2. With fuel for one more look at the stream than the state has
    requests left, a call of [execute] comes to an end. *)
Theorem execute_terminates (n : nat) self w st kw :
  requests_left self st kw n →
  is_Some (execute (S n) self w st kw).
Proof.
  intros (k & Hk & Hle). unfold execute.
  rewrite __get_request_iterator_unfold.
  destruct (time_time w) as [w1 start_time].
  apply execute_loop_enough_fuel. unfold stream_bound. cbn.
  rewrite __get_initial_request_iterator_lookup, lookup_insert_eq.
  by exists k.
Qed.

(** The completion marks after an evaluation: as before, or with the state
    marked; as before when [exit_if_service_not_supported] is not set. *)
Lemma _evaluate_response_completed self st rq res kw :
  let sc := _state_completed (_evaluate_response self st rq res kw).1 in
  (sc = _state_completed self ∨ sc = dict_set st true (_state_completed self))
  ∧ (default false (kw_exit_if_service_not_supported kw) = false →
     sc = _state_completed self).
Proof.
  unfold _evaluate_response. destruct res as [r|]; [|by split; [left|]].
  destruct (default false (kw_exit_if_service_not_supported kw)); cbn;
    repeat match goal with
           | |- context [if ?b then _ else _] => destruct b
           | |- context [match retry_slot ?s ?t with _ => _ end] =>
               destruct (retry_slot s t)
           end; cbn; unfold retry_touch;
    try destruct (_retry_pkt self !! st); cbn;
    (split; [by (left + right)|done]).
Qed.

Lemma execute_round_completed self w st rq
    (timeout execution_time start_time : Q) kw :
  let sc :=
    _state_completed
      (round_self
         (execute_round self w st rq timeout execution_time start_time kw)) in
  (sc = _state_completed self ∨ sc = dict_set st true (_state_completed self))
  ∧ (default false (kw_exit_if_service_not_supported kw) = false →
     sc = _state_completed self).
Proof.
  cbv zeta. unfold execute_round.
  destruct (sr1 w rq timeout) as [w' [e|res]].
  - destruct (caught e); [|by split; [left|]].
    destruct (retry_slot self st); cbn; unfold retry_touch;
      destruct (_retry_pkt self !! st); by split; [left|].
  - destruct (closed w'); [by split; [left|]|].
    destruct (_store_result_appends self st rq res)
      as (stored & -> & _ & _ & _ & Hsc).
    pose proof (_evaluate_response_completed stored st rq res kw) as Hev.
    cbv zeta in Hev. rewrite Hsc in Hev.
    destruct (_evaluate_response stored st rq res kw) as [self2 stop].
    cbn in Hev.
    destruct stop; [done|]. destruct (time_time w') as [w0 now].
    by destruct (Qltb (start_time + execution_time) now).
Qed.

Lemma has_completed_dict_set self st s (sc : list (EcuState * bool)) :
  default false (dict_get s sc) = true →
  default false (dict_get s (dict_set st true sc)) = true.
Proof.
  rewrite dict_get_set. by destruct (decide (st = s)).
Qed.

Lemma execute_loop_completed (fuel : nat) self w it st
    (timeout execution_time start_time : Q) kw final wf e :
  execute_loop fuel self w it st timeout execution_time start_time kw
    = Some (final, wf, e) →
  (∀ s, has_completed self s = true → has_completed final s = true) ∧
  (default false (kw_exit_if_service_not_supported kw) = false →
   _state_completed final =
     match e with
     | IteratorFinished => dict_set st true (_state_completed self)
     | _ => _state_completed self
     end).
Proof.
  revert self w it. induction fuel as [|fuel IH]; intros self w it; [done|].
  cbn [execute_loop].
  destruct (chain_next self it) as [[[rq self1] it1]|] eqn:Hnext.
  - destruct (chain_next_frame _ _ _ _ _ Hnext) as [[m ->] _].
    pose proof (execute_round_completed (set_request_iterators m self) w st
                  rq timeout execution_time start_time kw) as [Hor Hoff].
    pose proof (execute_round_not_finished (set_request_iterators m self) w
                  st rq timeout execution_time start_time kw) as Hnf.
    destruct (execute_round _ w st rq _ _ _ kw) as [self2 w2|self2 w2 e2];
      cbn in Hor, Hoff.
    + intros [Hmono Hfin]%IH. split.
      * intros s Hs. apply Hmono. unfold has_completed in *.
        destruct Hor as [->| ->]; [done|by apply has_completed_dict_set].
      * intros Hopt. rewrite (Hfin Hopt), (Hoff Hopt). done.
    + intros [= <- <- <-]. split.
      * intros s Hs. unfold has_completed in *.
        destruct Hor as [->| ->]; [done|by apply has_completed_dict_set].
      * intros Hopt. rewrite (Hoff Hopt).
        destruct e2; try done. by destruct (Hnf self2 w2).
  - intros [= <- <- <-]. split; [|done].
    intros s Hs. unfold has_completed in *. cbn.
    by apply has_completed_dict_set.
Qed.

(** X3. A call of [execute] never takes a completion mark back: a state
    that was marked completed before the call is so after it, however the
    call ends. *)
Theorem execute_keeps_completion (fuel : nat) self w st kw final wf e s :
  execute fuel self w st kw = Some (final, wf, e) →
  has_completed self s = true →
  has_completed final s = true.
Proof.
  unfold execute. rewrite __get_request_iterator_unfold.
  destruct (time_time w) as [w1 start_time].
  intros [Hmono _]%execute_loop_completed Hs. apply Hmono.
  unfold has_completed in *.
  by destruct (__get_initial_request_iterator_frame self st (kwargs_rest kw))
    as (_ & _ & -> & _).
Qed.

(** X4. Without [exit_if_service_not_supported], a call of [execute] marks
    its state completed exactly when it ends because the request stream has
    ended, and changes no other mark: a call that lets an exception through,
    finds the socket closed, is stopped by the evaluation or runs out of
    time leaves the marks as they are. *)
Theorem execute_marks_completion_at_end (fuel : nat) self w st kw final wf e :
  execute fuel self w st kw = Some (final, wf, e) →
  default false (kw_exit_if_service_not_supported kw) = false →
  _state_completed final =
    match e with
    | IteratorFinished => dict_set st true (_state_completed self)
    | _ => _state_completed self
    end.
Proof.
  unfold execute. rewrite __get_request_iterator_unfold.
  destruct (time_time w) as [w1 start_time].
  intros [_ Hfin]%execute_loop_completed Hopt.
  rewrite (Hfin Hopt).
  by destruct (__get_initial_request_iterator_frame self st (kwargs_rest kw))
    as (_ & _ & -> & _).
Qed.


(** X6. A call whose first exchange ends on a closed socket, for a state
    with no retry pending: the call returns at once, the request it drew
    from the initial requests is neither stored nor scheduled for a retry,
    and the iterator of the state has moved past it, so that no later call
    sends it. The completion marks are as before. *)
Theorem closed_socket_drops_request (fuel : nat) self w st kw p w1
    start_time w' res :
  retry_slot self st = None →
  iter_next (default (iter (_get_initial_requests (kwargs_rest kw)))
               (_request_iterators self !! st)) = Some p →
  time_time w = (w1, start_time) →
  sr1 w1 p.1 (default 1%Q (kw_timeout kw)) = (w', inr res) →
  closed w' = true →
  ∃ final,
    execute (S fuel) self w st kw = Some (final, w', SocketClosed) ∧
    _results final = _results self ∧
    retry_slot final st = None ∧
    _request_iterators final !! st = Some p.2 ∧
    _state_completed final = _state_completed self.
Proof.
  intros Hslot Hnext Htime Hsr Hcl. unfold execute.
  rewrite __get_request_iterator_unfold, Htime, Hslot. cbn [retry_items].
  cbn [execute_loop]. unfold chain_next. cbn [chain_retry chain_initial].
  rewrite __get_initial_request_iterator_lookup, lookup_insert_eq. cbn.
  rewrite Hnext. destruct p as [rq i']. cbn in *.
  unfold execute_round. rewrite Hsr, Hcl.
  destruct (__get_initial_request_iterator_frame self st (kwargs_rest kw))
    as (Hr & _ & Hsc & Hrs).
  eexists. split; [done|]. cbn.
  split_and!; [done| |by rewrite lookup_insert_eq|done].
  rewrite <- Hslot, <- (Hrs st). done.
Qed.


(** X8. A retry that meets a timeout stays pending. For a state whose only
    request left is a pending retry, a call that sends it and gets no
    answer (the socket stays open, [exit_if_no_answer_received] is not set,
    the time is not up) stores the unanswered exchange and ends because the
    stream has ended: the state is marked completed while the retry is still
    in its slot, where the next call finds it. *)
Theorem unanswered_retry_stays_pending (fuel : nat) self w st kw p
    w1 start_time w2 w3 now :
  retry_slot self st = Some (RetryPacket p) →
  iter_next (default (iter (_get_initial_requests (kwargs_rest kw)))
               (_request_iterators self !! st)) = None →
  time_time w = (w1, start_time) →
  sr1 w1 p (default 1%Q (kw_timeout kw)) = (w2, inr None) →
  closed w2 = false →
  default false (kw_exit_if_no_answer_received kw) = false →
  time_time w2 = (w3, now) →
  Qltb (start_time + default 1200%Q (kw_execution_time kw)) now = false →
  ∃ final,
    execute (S (S fuel)) self w st kw = Some (final, w3, IteratorFinished) ∧
    has_completed final st = true ∧
    retry_slot final st = Some (RetryPacket p) ∧
    length (_results final) = S (length (_results self)).
Proof.
  intros Hslot Hgen Htime Hsr Hcl Hopt Htime2 Hnow. unfold execute.
  rewrite __get_request_iterator_unfold, Htime, Hslot. cbn [retry_items].
  cbn [execute_loop]. unfold chain_next at 1. cbn [chain_retry chain_initial].
  unfold execute_round. rewrite Hsr, Hcl.
  destruct (__get_initial_request_iterator_frame self st (kwargs_rest kw))
    as (Hr & _ & _ & Hrs).
  destruct (_store_result_appends
              (__get_initial_request_iterator (retry_touch st self) st
                 (kwargs_rest kw)) st p None)
    as (stored & -> & (r & Hres & _) & Hreg & Hretry & _).
  cbn [_evaluate_response kwargs_rest kw_exit_if_no_answer_received].
  rewrite Hopt, Htime2, Hnow.
  unfold chain_next. cbn [chain_retry chain_initial].
  rewrite Hreg, __get_initial_request_iterator_lookup, lookup_insert_eq.
  cbn. rewrite Hgen. cbn.
  eexists. split; [done|]. split_and!.
  - unfold has_completed. cbn. by rewrite dict_get_set_eq.
  - unfold retry_slot in *. cbn. rewrite Hretry.
    specialize (Hrs st). unfold retry_slot in Hrs. by rewrite Hrs.
  - cbn. rewrite Hres, length_app, Hr. cbn. lia.
Qed.

(** Consistency of the store is a matter of the results and the table. *)
Lemma store_consistent_frame (a b : ServiceEnumerator) :
  _results b = _results a → __result_packets b = __result_packets a →
  store_consistent a → store_consistent b.
Proof.
  unfold store_consistent, results_interned. intros -> ->. done.
Qed.

Lemma store_consistent_init : store_consistent __init__.
Proof.
  split.
  - by exists [].
  - intros r Hr. cbn in Hr. by apply elem_of_nil in Hr.
Qed.

Lemma chain_next_consistent self it rq self1 it1 :
  chain_next self it = Some (rq, self1, it1) →
  store_consistent self → store_consistent self1.
Proof.
  intros Hnext. destruct (chain_next_frame _ _ _ _ _ Hnext) as [[m ->] _].
  by apply store_consistent_frame.
Qed.

Lemma execute_round_consistent self w st rq
    (timeout execution_time start_time : Q) kw :
  store_consistent self →
  store_consistent
    (round_self
       (execute_round self w st rq timeout execution_time start_time kw)).
Proof.
  intros Hc. unfold execute_round.
  destruct (sr1 w rq timeout) as [w' [e|res]].
  - destruct (caught e); [|done].
    destruct (retry_slot self st); cbn; unfold retry_touch;
      destruct (_retry_pkt self !! st); done.
  - destruct (closed w'); [done|].
    destruct (_store_result self st rq res) as [stored|] eqn:Hs; [|done].
    assert (Hc' : store_consistent stored).
    { destruct Hc as [[hist Ht] Hi].
      destruct (_store_result_interned _ _ _ _ _ _ Ht Hi Hs) as [Ht' Hi'].
      split; [by eexists|done]. }
    pose proof (_evaluate_response_frame stored st rq res kw) as Hev.
    cbv zeta in Hev. destruct Hev as (Hr & Ht & _).
    destruct (_evaluate_response stored st rq res kw) as [self2 stop].
    cbn in Hr, Ht.
    assert (store_consistent self2) by by apply (store_consistent_frame stored).
    destruct stop; [done|]. destruct (time_time w') as [w0 now].
    by destruct (Qltb (start_time + execution_time) now).
Qed.

Lemma execute_loop_consistent (fuel : nat) self w it st
    (timeout execution_time start_time : Q) kw final wf e :
  execute_loop fuel self w it st timeout execution_time start_time kw
    = Some (final, wf, e) →
  store_consistent self → store_consistent final.
Proof.
  revert self w it. induction fuel as [|fuel IH]; intros self w it; [done|].
  cbn [execute_loop].
  destruct (chain_next self it) as [[[rq self1] it1]|] eqn:Hnext.
  - intros Hloop Hc.
    pose proof (execute_round_consistent self1 w st rq timeout execution_time
                  start_time kw (chain_next_consistent _ _ _ _ _ Hnext Hc))
      as Hround.
    destruct (execute_round self1 w st rq _ _ _ kw) as [self2 w2|self2 w2 e2];
      cbn in Hround.
    + by apply (IH _ _ _ Hloop).
    + by injection Hloop as <- <- <-.
  - intros [= <- <- <-] Hc. by apply (store_consistent_frame self).
Qed.

(** X9. [execute] keeps the store consistent, so that however many calls
    have been made, for whichever states and with whichever answers, stored
    packets with the same bytes are one packet: the requests of two results,
    the responses of two results, and the response of one with the request
    of another. *)
Theorem execute_keeps_one_packet_per_bytes (fuel : nat) self w st kw
    final wf e :
  store_consistent self →
  execute fuel self w st kw = Some (final, wf, e) →
  store_consistent final ∧
  ∀ r1 r2, r1 ∈ _results final → r2 ∈ _results final →
    (raw (req r1) = raw (req r2) → req r1 = req r2) ∧
    (∀ p1 p2, resp r1 = Some p1 → resp r2 = Some p2 →
       raw p1 = raw p2 → p1 = p2) ∧
    (∀ p, resp r1 = Some p → raw p = raw (req r2) → p = req r2).
Proof.
  intros Hc Hrun.
  assert (Hf : store_consistent final).
  { unfold execute in Hrun. rewrite __get_request_iterator_unfold in Hrun.
    destruct (time_time w) as [w1 start_time].
    apply (execute_loop_consistent _ _ _ _ _ _ _ _ _ _ _ _ Hrun).
    destruct (__get_initial_request_iterator_frame self st (kwargs_rest kw))
      as (Hr & Ht & _).
    by apply (store_consistent_frame self). }
  split; [done|]. destruct Hf as [_ Hi].
  intros r1 r2 Hr1 Hr2.
  destruct (Hi r1 Hr1) as [Hq1 Hp1], (Hi r2 Hr2) as [Hq2 Hp2]. split_and!.
  - intros Hraw. rewrite Hraw in Hq1. congruence.
  - intros p1 p2 Hs1 Hs2 Hraw.
    specialize (Hp1 p1 Hs1). specialize (Hp2 p2 Hs2).
    rewrite Hraw in Hp1. congruence.
  - intros p Hs1 Hraw. specialize (Hp1 p Hs1). rewrite Hraw in Hp1.
    congruence.
Qed.
End execution_more.

(** ** The views of the result store *)

Lemma filter_none {A} (P : A → Prop) `{∀ x, Decision (P x)} (l : list A) :
  (∀ x, x ∈ l → ¬ P x) → filter P l = [].
Proof.
  induction l as [|x l IH]; intros Hn; [done|].
  rewrite filter_cons, decide_False by (apply Hn; left).
  apply IH. intros y Hy. apply Hn. by right.
Qed.

Lemma remove_each_NoDup (removed l : list Z) :
  NoDup l → NoDup (remove_each removed l).
Proof.
  unfold remove_each. revert l.
  induction removed as [|x removed IH]; intros l Hnd; cbn [foldl]; [done|].
  by apply IH, list_remove_first_NoDup.
Qed.

Lemma occurrences_pos (c : Z) (codes : list Z) :
  c ∈ codes ↔ (0 < occurrences c codes)%nat.
Proof.
  unfold occurrences. induction codes as [|x codes IH].
  - cbn. split; [by intros ?%elem_of_nil|lia].
  - rewrite filter_cons, elem_of_cons.
    destruct (decide (x = c)) as [->|Hne]; cbn [length].
    + split; [lia|by left].
    + rewrite <- IH. split; [by intros [?|?]|by right].
Qed.

Section views_more.
Context `{EcuStateOps} `{EnumeratorOps}.
Implicit Types (self : ServiceEnumerator).

(** The blacklist after a run of [_prepare_negative_response_blacklist], in
    closed form over the counted codes. *)
Lemma prepared_blacklist self :
  let bl := _negative_response_blacklist self in
  let codes := negative_codes self in
  let items := fold_left nrc_count_incr codes [] in
  _negative_response_blacklist (_prepare_negative_response_blacklist self)
    = remove_each (removed_codes bl items) bl
        ++ appended_codes bl (length codes) items
  ∧ NoDup items.*1
  ∧ ∀ c n, (c, n) ∈ items ↔ n = occurrences c codes ∧ (0 < n)%nat.
Proof.
  cbv zeta.
  destruct (negative_codes_counted self) as [Hcodes Hlen].
  set (codes := negative_codes self) in *.
  set (bl := _negative_response_blacklist self).
  set (items := fold_left nrc_count_incr codes []).
  assert (Hnd : NoDup items.*1).
  { apply (nrc_count_NoDup codes []). constructor. }
  split_and!; [|done|].
  - unfold _prepare_negative_response_blacklist. cbn.
    rewrite nrc_dict_of_codes, Hcodes, Hlen. fold items. fold bl.
    destruct (decide (codes = [])) as [Hc|Hc].
    + subst items. rewrite Hc. cbn. by rewrite app_nil_r.
    + rewrite <- (app_nil_r bl) at 1.
      rewrite blacklist_rounds; [done| |done|].
      * destruct codes; [done|cbn; lia].
      * intros c _. apply not_elem_of_nil.
  - intros c n. rewrite (dict_get_elem_of items c n Hnd).
    apply nrc_count_spec.
Qed.

(** Membership in the blacklist after a run, for a blacklist without
    repetitions. *)
Lemma prepared_blacklist_elem_of self c :
  let bl := _negative_response_blacklist self in
  let codes := negative_codes self in
  NoDup bl →
  c ∈ _negative_response_blacklist (_prepare_negative_response_blacklist self)
  ↔ (c ∈ bl ∧ ¬ (0 < occurrences c codes < 10)%nat)
    ∨ ((c ∉ bl) ∧ (30 < occurrences c codes)%nat
       ∧ (3 * length codes < 10 * occurrences c codes)%nat).
Proof.
  cbv zeta. intros Hnd.
  destruct (prepared_blacklist self) as (-> & Hind & Hitems). cbv zeta in *.
  rewrite elem_of_app, elem_of_remove_each by done.
  unfold removed_codes, appended_codes. rewrite !list_elem_of_fmap.
  split.
  - intros [[Hc Hrem]|([c' n] & -> & [(Hc & Hn & Hp) [-> Hpos]%Hitems]%list_elem_of_filter)].
    + left. split; [done|]. intros Hocc. apply Hrem.
      exists (c, occurrences c (negative_codes self)). split; [done|].
      apply list_elem_of_filter. cbn. split; [split; [done|lia]|].
      apply Hitems. split; [done|lia].
    + right. done.
  - intros [[Hc Hocc]|(Hc & Hn & Hp)].
    + left. split; [done|].
      intros ([c' n] & -> & [(_ & Hn) [-> Hpos]%Hitems]%list_elem_of_filter).
      cbn in *. lia.
    + right. exists (c, occurrences c (negative_codes self)). split; [done|].
      apply list_elem_of_filter. split; [done|].
      apply Hitems. split; [done|lia].
Qed.

Lemma prepared_blacklist_NoDup self :
  NoDup (_negative_response_blacklist self) →
  NoDup (_negative_response_blacklist
           (_prepare_negative_response_blacklist self)).
Proof.
  intros Hnd. destruct (prepared_blacklist self) as (-> & Hind & Hitems).
  cbv zeta in *. apply NoDup_app. split_and!.
  - by apply remove_each_NoDup.
  - intros c [Hc _]%elem_of_remove_each; [|done].
    unfold appended_codes. rewrite list_elem_of_fmap.
    intros ([c' n] & -> & [(Hc' & _) _]%list_elem_of_filter). done.
  - unfold appended_codes.
    apply (sublist_NoDup _ _ Hind), fmap_sublist, sublist_filter.
Qed.

Lemma negative_codes_prepared self :
  negative_codes (_prepare_negative_response_blacklist self)
  = negative_codes self.
Proof. done. Qed.

(** X10. For a blacklist without repetitions, one run of
    [_prepare_negative_response_blacklist] settles the blacklist for the
    stored results: it leaves a blacklist without repetitions, and a second
    run over the same results changes nothing. *)
Theorem blacklist_recomputation_settles self :
  NoDup (_negative_response_blacklist self) →
  let self' := _prepare_negative_response_blacklist self in
  NoDup (_negative_response_blacklist self') ∧
  _prepare_negative_response_blacklist self' = self'.
Proof.
  cbv zeta. intros Hnd.
  pose proof (prepared_blacklist_NoDup self Hnd) as Hnd'.
  split; [done|].
  assert (Hbl : _negative_response_blacklist
                  (_prepare_negative_response_blacklist
                     (_prepare_negative_response_blacklist self))
                = _negative_response_blacklist
                    (_prepare_negative_response_blacklist self)).
  { destruct (prepared_blacklist (_prepare_negative_response_blacklist self))
      as (-> & Hind & Hitems). cbv zeta in *.
    rewrite negative_codes_prepared in *.
    set (bl' := _negative_response_blacklist
                  (_prepare_negative_response_blacklist self)) in *.
    assert (Hmem := λ c, prepared_blacklist_elem_of self c Hnd).
    cbv zeta in Hmem. fold bl' in Hmem.
    unfold removed_codes, appended_codes.
    rewrite !filter_none; [by rewrite app_nil_r| |].
    - intros [c n] [-> Hpos]%Hitems (Hc & Hn & Hp). cbn in *.
      apply Hc, Hmem.
      destruct (decide (c ∈ _negative_response_blacklist self)).
      + left. split; [done|lia].
      + right. done.
    - intros [c n] [-> Hpos]%Hitems (Hc & Hn). cbn in *.
      apply Hmem in Hc. lia. }
  revert Hbl. generalize (_prepare_negative_response_blacklist self).
  intros s Hbl. unfold _prepare_negative_response_blacklist in *.
  cbn in Hbl. rewrite Hbl. by destruct s.
Qed.

Lemma results_with_response_prepared self :
  results_with_response (_prepare_negative_response_blacklist self)
  = results_with_response self.
Proof. done. Qed.

(** A negative response among the results with a response is counted. *)
Lemma results_with_response_counted self r :
  r ∈ results_with_response self → service (f_resp r) = 0x7f →
  (0 < occurrences (_get_negative_response_code (f_resp r))
         (negative_codes self))%nat.
Proof.
  unfold results_with_response, negative_codes.
  intros (r0 & Hr0 & Hf)%list_elem_of_omap Hneg.
  apply occurrences_pos, list_elem_of_omap. exists r0. split; [done|].
  unfold as_filtered in Hf. destruct (resp r0) as [p|]; [|done].
  destruct (resp_ts r0) as [t|]; [|done]. cbn in Hf.
  injection Hf as <-. cbn in *. by rewrite bool_decide_eq_true_2.
Qed.

(** X11. What [filtered_results] shows after a run of
    [_prepare_negative_response_blacklist] over a blacklist without
    repetitions. A stored result with a response is shown if and only if its
    response is positive, or its code was on the blacklist and occurs fewer
    than 10 times, or its code was not on the blacklist and does not occur
    both more than 30 times and more often than 30% of the number of all
    negative responses. *)
Theorem filtered_results_after_recomputation self r :
  NoDup (_negative_response_blacklist self) →
  r ∈ results_with_response self →
  let bl := _negative_response_blacklist self in
  let codes := negative_codes self in
  let c := _get_negative_response_code (f_resp r) in
  r ∈ filtered_results (_prepare_negative_response_blacklist self) ↔
    service (f_resp r) ≠ 0x7f
    ∨ (c ∈ bl ∧ (occurrences c codes < 10)%nat)
    ∨ ((c ∉ bl) ∧ ¬ ((30 < occurrences c codes)%nat
                     ∧ (3 * length codes < 10 * occurrences c codes)%nat)).
Proof.
  intros Hnd Hr. cbv zeta. unfold filtered_results.
  rewrite results_with_response_prepared, list_elem_of_filter.
  unfold is_kept, is_negative.
  destruct (decide (service (f_resp r) = 0x7f)) as [Hneg|Hpos].
  - rewrite (bool_decide_eq_true_2 _ Hneg). cbn [negb].
    pose proof (results_with_response_counted self r Hr Hneg) as Hocc.
    pose proof (prepared_blacklist_elem_of self
                  (_get_negative_response_code (f_resp r)) Hnd) as Hmem.
    cbv zeta in Hmem.
    rewrite negb_True, bool_decide_spec, Hmem.
    destruct (decide (_get_negative_response_code (f_resp r)
                        ∈ _negative_response_blacklist self)) as [Hc|Hc].
    + split.
      * intros [Hn _]. right. left. split; [done|].
        destruct (decide (occurrences (_get_negative_response_code (f_resp r))
                            (negative_codes self) < 10)%nat); [done|].
        exfalso. apply Hn. left. split; [done|lia].
      * intros [?|[[_ Hn]|[? _]]]; [done| |done]. split; [|done].
        intros [[_ Hn']|[? _]]; [lia|done].
    + split.
      * intros [Hn _]. right. right. split; [done|].
        intros [? ?]. apply Hn. right. done.
      * intros [?|[[? _]|[_ Hn]]]; [done|done|]. split; [|done].
        intros [[? _]|(_ & ? & ?)]; [done|]. by apply Hn.
  - rewrite (bool_decide_eq_false_2 _ Hpos). cbn [negb].
    split; [by left|by intros _; split].
Qed.

(** X12. The three views by response split the stored results: every
    stored result is in exactly one of [results_with_negative_response],
    [results_with_positive_response] and [results_without_response], every
    packet object counting as true. *)
Theorem results_split_by_response self :
  _results self ≡ₚ
    results_with_negative_response self
      ++ results_with_positive_response self
      ++ results_without_response self.
Proof.
  unfold results_with_negative_response, results_with_positive_response,
    results_without_response.
  induction (_results self) as [|r l IH]; [done|].
  rewrite !filter_cons_bool, (filter_cons (λ r, resp r = None)).
  assert (Hcases :
    (has_negative_response r = true ∧ has_positive_response r = false
     ∧ resp r ≠ None)
    ∨ (has_negative_response r = false ∧ has_positive_response r = true
       ∧ resp r ≠ None)
    ∨ (has_negative_response r = false ∧ has_positive_response r = false
       ∧ resp r = None)).
  { unfold has_negative_response, has_positive_response, packet_truth.
    destruct (resp r) as [p|]; [|by right; right].
    destruct (is_negative p); [by left|by right; left]. }
  destruct Hcases as [(-> & -> & Hr)|[(-> & -> & Hr)|(-> & -> & Hr)]].
  - rewrite decide_False by done. cbn. by f_equiv.
  - rewrite decide_False by done. rewrite IH at 1.
    by rewrite <- app_comm_cons, <- Permutation_middle.
  - rewrite decide_True by done. rewrite IH at 1.
    by rewrite <- !Permutation_middle.
Qed.




(** With results, [completed] asks every state that has a result, and no
    other. *)
Lemma completed_nonempty (super_completed : bool) self :
  _results self ≠ [] →
  completed super_completed self = true ↔
    ∀ r, r ∈ _results self → has_completed self (state r) = true.
Proof.
  intros Hne. unfold completed, scanned_states.
  rewrite bool_decide_eq_true_2 by by destruct (_results self).
  rewrite forallb_forall. split.
  - intros Hall r Hr. apply Hall. rewrite <- list_elem_of_In.
    rewrite elem_of_elements, elem_of_list_to_set, list_elem_of_fmap.
    by exists r.
  - intros Hall s. rewrite <- list_elem_of_In.
    rewrite elem_of_elements, elem_of_list_to_set, list_elem_of_fmap.
    intros (r & -> & Hr). by apply Hall.
Qed.

Lemma completed_empty (super_completed : bool) self :
  _results self = [] → completed super_completed self = super_completed.
Proof. unfold completed. by intros ->. Qed.

(** X14. The property [completed] when there are results: it is true if
    and only if the state of every stored result has completed, whatever the
    base class says and whatever other states have completed. Without
    results it is what the base class says. *)
Theorem completed_spec (super_completed : bool) self :
  completed super_completed self = true ↔
    if decide (_results self = []) then super_completed = true
    else ∀ r, r ∈ _results self → has_completed self (state r) = true.
Proof.
  destruct (decide (_results self = [])) as [He|Hne].
  - by rewrite completed_empty.
  - by apply completed_nonempty.
Qed.

(** X15. A positive response is evaluated the same way whatever the
    options are: the retry slot of the state is emptied, and the evaluation
    asks to stop exactly when the response is a state-modifying one that
    leads to another state. *)
Theorem positive_response_evaluation self (st : EcuState) rq r kw :
  service r ≠ 0x7f →
  _evaluate_response self st rq (Some r) kw =
    (retry_assign st None self,
     is_modifier_pkt r && bool_decide (st ≠ get_modified_ecu_state r rq st)).
Proof.
  intros Hpos. unfold _evaluate_response, is_negative.
  rewrite (bool_decide_eq_false_2 _ Hpos), !andb_false_r. cbn.
  by destruct (is_modifier_pkt r && _).
Qed.
End views_more.

Section transitions_more.
Context `{EcuStateOps} `{EnumeratorOps} `{Transport} `{PacketFormat}.
Implicit Types (self : ServiceEnumerator).

(** X16. From [get_new_edge] to [get_transition_function]. When
    [get_new_edge] finds an edge, the edge leaves the state of the last
    stored result for another state, and the transition of that edge is to
    send the request of that result again, described by its [repr]; the
    transitions of all other edges are as they were. When it finds none, the
    enumerator is unchanged. *)
Theorem get_new_edge_transition self :
  match get_new_edge self with
  | (self', Some edge) =>
      ∃ r, last (_results self) = Some r ∧
           edge.1 = state r ∧ edge.2 ≠ edge.1 ∧
           get_transition_function self' edge
             = Some (mkTransitionKwargs (repr_packet (req r)) (req r)) ∧
           ∀ e, e ≠ edge →
             get_transition_function self' e = get_transition_function self e
  | (self', None) => self' = self
  end.
Proof.
  unfold get_new_edge. destruct (last (_results self)) as [r|]; [|done].
  destruct (resp r) as [rp|]; [|done].
  destruct (is_modifier_pkt rp); [|done]. cbv zeta.
  destruct (decide (get_modified_ecu_state rp (req r) (state r) = state r))
    as [Heq|Hne]; [done|].
  exists r. split_and!; [done|done|done| |].
  - unfold get_transition_function, get_transition_function_kwargs,
      get_transition_function_description. cbn.
    by rewrite lookup_insert_eq.
  - intros e He.
    unfold get_transition_function, get_transition_function_kwargs,
      get_transition_function_description. cbn.
    by rewrite lookup_insert_ne.
Qed.

(** X17. [get_transition_function] gives a transition exactly for the edges
    that have a request, and then the description is the one of that very
    request: the second lookup in [get_transition_function_description]
    cannot fail once the first has succeeded. A new enumerator has no
    transition at all. *)
Theorem get_transition_function_spec self edge :
  match get_transition_function self edge with
  | Some k => _edge_requests self !! edge = Some (tk_req k)
              ∧ tk_desc k = repr_packet (tk_req k)
  | None => _edge_requests self !! edge = None
  end ∧ get_transition_function __init__ edge = None.
Proof.
  unfold get_transition_function, get_transition_function_kwargs,
    get_transition_function_description.
  split; [|done]. by destruct (_edge_requests self !! edge).
Qed.

(** X18. What [transition_function] returns. It returns true if and only if
    there is a request, the exchange gives a response, and the response is
    not negative. It never lets a caught exception out: an exception that
    leaves it is one [sr1] raised that is none of [OSError], [ValueError]
    and [Scapy_Exception]. Without a request it does not touch the socket,
    and with one it makes the one exchange with a timeout of 20. *)
Theorem transition_function_outcome (sock : World) (req : option Packet) :
  let out := transition_function sock req in
  (out.2 = inr true ↔
     ∃ rq p, req = Some rq ∧ (sr1 sock rq 20%Q).2 = inr (Some p)
             ∧ service p ≠ 0x7f) ∧
  (∀ e, out.2 = inl e →
     caught e = false ∧ ∃ rq, req = Some rq ∧ (sr1 sock rq 20%Q).2 = inl e) ∧
  out.1 = match req with
          | None => sock
          | Some rq => (sr1 sock rq 20%Q).1
          end.
Proof.
  cbv zeta. unfold transition_function. destruct req as [rq|].
  - destruct (sr1 sock rq 20%Q) as [sock' [e|[p|]]] eqn:Hsr; cbn.
    + destruct (caught e) eqn:Hc; cbn; split_and!; try done.
      * split; [done|]. intros (? & ? & [= <-] & Hp & _).
        by rewrite Hsr in Hp.
      * split; [done|]. intros (? & ? & [= <-] & Hp & _).
        by rewrite Hsr in Hp.
      * intros e' [= <-]. split; [done|]. exists rq. by rewrite Hsr.
    + split_and!; [|done|done]. split.
      * intros [= Hn]. exists rq, p. rewrite Hsr. split_and!; [done..|].
        apply negb_true_iff in Hn. rewrite <- not_true_iff_false in Hn.
        by rewrite is_negative_true in Hn.
      * intros (? & p' & [= <-] & Hp & Hs). rewrite Hsr in Hp.
        injection Hp as <-. f_equal.
        apply negb_true_iff. rewrite <- not_true_iff_false.
        by rewrite is_negative_true.
    + split_and!; [|done|done]. split; [done|].
      intros (? & ? & [= <-] & Hp & _). by rewrite Hsr in Hp.
  - cbn. split_and!; [|done|done]. split; [done|]. by intros (? & ? & ? & _).
Qed.
End transitions_more.

(** ** Completion of a scan *)

Section completion_more.
Context `{EcuStateOps} `{EnumeratorOps} `{Transport}.
Implicit Types (self : ServiceEnumerator) (st : EcuState) (kw : Kwargs)
  (w : World).

(** X19. A call of [execute] that ends because the request stream of its
    state has ended makes the scan [completed], provided every other state
    that has results had completed before: with results, [completed] is then
    true whatever the base class says. *)
Theorem finished_scan_is_completed (fuel : nat) self w st kw final wf
    (super_completed : bool) :
  (∀ r, r ∈ _results self → state r ≠ st →
        has_completed self (state r) = true) →
  execute fuel self w st kw = Some (final, wf, IteratorFinished) →
  completed super_completed final =
    if decide (_results final = []) then super_completed else true.
Proof.
  intros Hother Hrun.
  destruct (decide (_results final = [])) as [He|Hne];
    [by apply completed_empty|].
  apply completed_nonempty; [done|].
  unfold execute in Hrun. rewrite __get_request_iterator_unfold in Hrun.
  destruct (time_time w) as [w1 start_time].
  destruct (__get_initial_request_iterator_frame self st (kwargs_rest kw))
    as (Hr0 & _ & Hsc0 & _).
  destruct (execute_loop_appends _ _ _ _ _ _ _ _ _ _ _ _ Hrun)
    as (new & Hres & Hnew & _).
  destruct (execute_loop_completed _ _ _ _ _ _ _ _ _ _ _ _ Hrun)
    as [Hmono _].
  destruct (execute_loop_finished _ _ _ _ _ _ _ _ _ _ _ Hrun) as [Hst _].
  intros r. rewrite Hres, Hr0, elem_of_app.
  destruct (decide (state r = st)) as [->|Hneq]; [done|].
  intros [Hr|Hr].
  - apply Hmono. unfold has_completed. rewrite Hsc0. by apply Hother.
  - rewrite Forall_forall in Hnew. by specialize (Hnew r Hr).
Qed.
End completion_more.

Section witnesses.
#[local] Existing Instance demo_states.
#[local] Existing Instance demo_enumerator.
#[local] Existing Instance demo_transport.

(** The theorem at work: the first call of the scenario. *)
Lemma execute_appends_results_witness :
  ∃ final wf e new,
    @execute demo_states demo_enumerator demo_transport 10 __init__ demo_scenario 1%nat no_kwargs = Some (final, wf, e) ∧
    _results final = _results __init__ ++ new ∧
    Forall (λ r, state r = 1%nat) new ∧ (length new ≤ 10)%nat.
Proof.
  destruct (@execute demo_states demo_enumerator demo_transport 10 __init__ demo_scenario 1%nat no_kwargs)
    as [[[final wf] e]|] eqn:Hrun; [|by vm_compute in Hrun].
  destruct (@execute_appends_results demo_states demo_enumerator
              demo_transport 10 __init__ demo_scenario 1%nat no_kwargs
              final wf e Hrun) as (new & Hres & Hst & Hlen & _).
  by exists final, wf, e, new.
Defined.

(** The theorem at work: the three requests of the concrete device. *)
Lemma execute_terminates_witness :
  requests_left __init__ 1%nat no_kwargs 3
  ∧ is_Some (@execute demo_states demo_enumerator demo_transport 4 __init__ demo_scenario 1%nat no_kwargs).
Proof.
  assert (Hleft : requests_left __init__ 1%nat no_kwargs 3).
  { exists 3%nat. split; [reflexivity|vm_compute; lia]. }
  split; [exact Hleft|].
  exact (@execute_terminates demo_states demo_enumerator demo_transport
           3 __init__ demo_scenario 1%nat no_kwargs Hleft).
Defined.

(** The theorem at work: a call for state 2 keeps the mark of state 1. *)
Lemma execute_keeps_completion_witness :
  ∃ final wf e,
    @execute demo_states demo_enumerator demo_transport 10 demo_completed demo_scenario 2%nat no_kwargs
      = Some (final, wf, e) ∧
    has_completed demo_completed 1%nat = true ∧
    has_completed final 1%nat = true.
Proof.
  destruct (@execute demo_states demo_enumerator demo_transport 10 demo_completed demo_scenario 2%nat no_kwargs)
    as [[[final wf] e]|] eqn:Hrun; [|by vm_compute in Hrun].
  exists final, wf, e. split; [done|]. split; [reflexivity|].
  exact (@execute_keeps_completion demo_states demo_enumerator demo_transport
           10 demo_completed demo_scenario 2%nat no_kwargs final wf e 1%nat
           Hrun eq_refl).
Defined.

(** The theorem at work: the first call of the scenario is stopped by the
    evaluation and marks nothing. *)
Lemma execute_marks_completion_at_end_witness :
  ∃ final wf,
    @execute demo_states demo_enumerator demo_transport 10
      (@__init__ demo_states) demo_scenario 1%nat no_kwargs
      = Some (final, wf, StoppedByEvaluation) ∧
    _state_completed final = _state_completed (@__init__ demo_states).
Proof.
  assert (Hend : (λ r, r.2)
                   <$> @execute demo_states demo_enumerator demo_transport
                         10 (@__init__ demo_states) demo_scenario 1%nat
                         no_kwargs
                 = Some StoppedByEvaluation) by (vm_compute; reflexivity).
  destruct (@execute demo_states demo_enumerator demo_transport 10
              (@__init__ demo_states) demo_scenario 1%nat no_kwargs)
    as [[[final wf] e]|] eqn:Hrun; [|done].
  injection Hend as ->. exists final, wf. split; [reflexivity|].
  exact (@execute_marks_completion_at_end demo_states demo_enumerator
           demo_transport 10 (@__init__ demo_states) demo_scenario 1%nat
           no_kwargs final wf StoppedByEvaluation Hrun eq_refl).
Defined.

(** The theorem at work: the transport closes during the first exchange. *)
Lemma closed_socket_drops_request_witness :
  ∃ final w',
    @execute demo_states demo_enumerator demo_transport 1
      (@__init__ demo_states) demo_closing 1%nat no_kwargs
      = Some (final, w', SocketClosed) ∧
    _results final = [] ∧
    @retry_slot demo_states final 1%nat = None.
Proof.
  edestruct (@closed_socket_drops_request demo_states demo_enumerator
               demo_transport 0 (@__init__ demo_states) demo_closing 1%nat
               no_kwargs)
    as (final & Hrun & Hres & Hslot & _);
    [vm_compute; reflexivity..|].
  exists final. eexists. split; [exact Hrun|]. split; [exact Hres|exact Hslot].
Defined.


(** The theorem at work: the pending retry of the session request meets a
    timeout. *)
Lemma unanswered_retry_stays_pending_witness :
  ∃ final w3,
    @execute demo_states demo_enumerator demo_transport 2 demo_retry_only
      demo_silent 1%nat no_kwargs
      = Some (final, w3, IteratorFinished) ∧
    @has_completed demo_states final 1%nat = true ∧
    @retry_slot demo_states final 1%nat
      = Some (RetryPacket demo_session_request).
Proof.
  edestruct (@unanswered_retry_stays_pending demo_states demo_enumerator
               demo_transport 0 demo_retry_only demo_silent 1%nat no_kwargs
               demo_session_request)
    as (final & Hrun & Hc & Hslot & _);
    [vm_compute; reflexivity..|].
  exists final. eexists. split; [exact Hrun|]. split; [exact Hc|exact Hslot].
Defined.

(** The theorem at work: the first call of the scenario on a new
    enumerator. *)
Lemma execute_keeps_one_packet_per_bytes_witness :
  @store_consistent demo_states (@__init__ demo_states) ∧
  ∃ final wf e,
    @execute demo_states demo_enumerator demo_transport 10
      (@__init__ demo_states) demo_scenario 1%nat no_kwargs
      = Some (final, wf, e) ∧
    @store_consistent demo_states final.
Proof.
  assert (Hc : @store_consistent demo_states (@__init__ demo_states)).
  { split; [by exists []|]. intros r Hr. inversion Hr. }
  split; [exact Hc|].
  destruct (@execute demo_states demo_enumerator demo_transport 10
              (@__init__ demo_states) demo_scenario 1%nat no_kwargs)
    as [[[final wf] e]|] eqn:Hrun; [|by vm_compute in Hrun].
  exists final, wf, e. split; [reflexivity|].
  exact (proj1 (@execute_keeps_one_packet_per_bytes demo_states
                  demo_enumerator demo_transport 10 (@__init__ demo_states)
                  demo_scenario 1%nat no_kwargs final wf e Hc Hrun)).
Defined.

(** The theorem at work: 5 negative responses of a code on the blacklist
    among 100. *)
Lemma blacklist_recomputation_settles_witness :
  NoDup (_negative_response_blacklist demo_negative_store) ∧
  NoDup (_negative_response_blacklist
           (@_prepare_negative_response_blacklist demo_states
              demo_enumerator demo_negative_store)) ∧
  @_prepare_negative_response_blacklist demo_states demo_enumerator
    (@_prepare_negative_response_blacklist demo_states demo_enumerator
       demo_negative_store)
  = @_prepare_negative_response_blacklist demo_states demo_enumerator
      demo_negative_store.
Proof.
  assert (Hnd : NoDup (_negative_response_blacklist demo_negative_store)).
  { apply (bool_decide_unpack _). vm_compute. exact I. }
  split; [exact Hnd|].
  exact (@blacklist_recomputation_settles demo_states demo_enumerator
           demo_negative_store Hnd).
Defined.

(** The theorem at work: a result with the code that occurs 5 times is
    shown after the recomputation, although the code was on the
    blacklist. *)
Lemma filtered_results_after_recomputation_witness :
  NoDup (_negative_response_blacklist demo_negative_store) ∧
  demo_rare_result
    ∈ @results_with_response demo_states demo_negative_store ∧
  demo_rare_result
    ∈ @filtered_results demo_states demo_enumerator
        (@_prepare_negative_response_blacklist demo_states demo_enumerator
           demo_negative_store).
Proof.
  assert (Hnd : NoDup (_negative_response_blacklist demo_negative_store)).
  { apply (bool_decide_unpack _). vm_compute. exact I. }
  assert (Hin : demo_rare_result
                  ∈ @results_with_response demo_states demo_negative_store).
  { vm_compute. left. }
  split; [exact Hnd|]. split; [exact Hin|].
  apply (@filtered_results_after_recomputation demo_states demo_enumerator
           demo_negative_store demo_rare_result Hnd Hin).
  right. left. split.
  - apply (bool_decide_unpack _). vm_compute. exact I.
  - vm_compute. lia.
Defined.


(** The theorem at work: a positive response under
    [exit_scan_on_first_negative_response], with a retry pending. *)
Lemma positive_response_evaluation_witness :
  service (positive_response 13 x51 21%Q) ≠ 0x7f ∧
  @_evaluate_response demo_states demo_enumerator demo_retry_pending 1%nat
    demo_session_request (Some (positive_response 13 x51 21%Q))
    kw_exit_on_negative
  = (@retry_assign demo_states 1%nat None demo_retry_pending, false).
Proof.
  assert (Hpos : service (positive_response 13 x51 21%Q) ≠ 0x7f)
    by (vm_compute; discriminate).
  split; [exact Hpos|].
  exact (@positive_response_evaluation demo_states demo_enumerator
           demo_retry_pending 1%nat demo_session_request
           (positive_response 13 x51 21%Q) kw_exit_on_negative Hpos).
Defined.

(** The theorem at work: state 1 has a result and has completed; a silent
    device is then scanned to the end in state 2. *)
Lemma finished_scan_is_completed_witness :
  ∃ final wf,
    @execute demo_states demo_enumerator demo_transport 10 demo_scanned
      demo_silent 2%nat no_kwargs
      = Some (final, wf, IteratorFinished) ∧
    @completed demo_states false final = true.
Proof.
  assert (Hother : ∀ r, r ∈ _results demo_scanned → state r ≠ 2%nat →
            @has_completed demo_states demo_scanned (state r) = true).
  { intros r Hr _. apply list_elem_of_singleton in Hr. by subst r. }
  assert (Hend : (λ r, (length (_results r.1.1), r.2))
                   <$> @execute demo_states demo_enumerator demo_transport
                         10 demo_scanned demo_silent 2%nat no_kwargs
                 = Some (4%nat, IteratorFinished))
    by (vm_compute; reflexivity).
  destruct (@execute demo_states demo_enumerator demo_transport 10
              demo_scanned demo_silent 2%nat no_kwargs)
    as [[[final wf] e]|] eqn:Hrun; [|done].
  injection Hend as Hlen ->. cbn [fst] in Hlen.
  exists final, wf. split; [reflexivity|].
  rewrite (@finished_scan_is_completed demo_states demo_enumerator
             demo_transport 10 demo_scanned demo_silent 2%nat no_kwargs final
             wf false Hother Hrun).
  destruct (decide (_results final = [])) as [He|_]; [|done].
  by rewrite He in Hlen.
Defined.
End witnesses.

(** ** The concrete device at work *)

Section examples.
#[local] Existing Instance demo_states.
#[local] Existing Instance demo_enumerator.
#[local] Existing Instance demo_transport.
#[local] Existing Instance demo_format.
#[local] Existing Instance demo_packet_format.

(** The first call stops at the busy answer and schedules the retry. *)
Example scenario_first_call :
  run_summary first_call =
    Some ([(1, Some 11)]%nat, Some (RetryPacket demo_session_request), false,
          StoppedByEvaluation).
Proof. vm_compute. reflexivity. Qed.

(** The second call sends the retry first, goes on after the second busy
    answer, and completes the state. The second busy response has the bytes
    of the first and is stored as that one. *)
Example scenario_second_call :
  run_summary second_call =
    Some ([(1, Some 11); (1, Some 11); (2, Some 13); (3, None)]%nat,
          None, true, IteratorFinished).
Proof. vm_compute. reflexivity. Qed.

(** A failing transport: the first failure schedules the request for a
    retry, the failure of the retry leaves it there, and both calls end with
    the exception. *)
Example failure_first_call :
  run_summary first_failure =
    Some ([], Some (RetryPacket demo_session_request), false, Raised OSError).
Proof. vm_compute. reflexivity. Qed.

Example failure_second_call :
  run_summary second_failure =
    Some ([], Some (RetryPacket demo_session_request), false,
          Raised ValueError).
Proof. vm_compute. reflexivity. Qed.

(** Two negative responses are too few to change the blacklist. *)
Example scenario_blacklist :
  (second_call ≫= λ '(self, _, _),
     Some (_negative_response_blacklist
             (_prepare_negative_response_blacklist self)))
  = Some [0x10; 0x11].
Proof. vm_compute. reflexivity. Qed.

(** Latencies 1, 2 and 3: minimum 1, maximum 3, average 2; one result is
    unanswered. *)
Example statistics_example :
  take 6 (data_set_stats "1" demo_results) =
    [ ("1", "num_answered", "3"); ("1", "num_unanswered", "1");
      ("1", "num_negative_resps", "0");
      ("1", "answertime_min", "1/1"); ("1", "answertime_max", "3/1");
      ("1", "answertime_avg", "2/1") ]%string.
Proof. vm_compute. reflexivity. Qed.

(** A code that makes up 40 of 100 negative responses is put on the
    blacklist. *)
Example blacklist_adds :
  _negative_response_blacklist
    (_prepare_negative_response_blacklist
       (set_results (negative_results x31 40 ++ negative_results x33 20
                     ++ negative_results x12 20 ++ negative_results x13 20)
          __init__))
  = [0x10; 0x11; 0x31].
Proof. vm_compute. reflexivity. Qed.

(** A code on the blacklist that occurs 5 times is taken off it. *)
Example blacklist_removes :
  _negative_response_blacklist
    (_prepare_negative_response_blacklist
       (set_results (negative_results x11 5 ++ negative_results x33 95)
          __init__))
  = [0x10; 0x33].
Proof. vm_compute. reflexivity. Qed.

(** A session response that moves the device from session 1 to session 3
    is an edge; the same response in session 3 is none. *)
Example edge_found :
  (get_new_edge
     (set_results
        [mkScanResult 1%nat demo_session_request
           (Some (session_response 40 x03 1%Q)) 0%Q (Some 1%Q)] __init__)).2
  = Some (1%nat, 3%nat).
Proof. vm_compute. reflexivity. Qed.

Example edge_not_found :
  (get_new_edge
     (set_results
        [mkScanResult 3%nat demo_session_request
           (Some (session_response 40 x03 1%Q)) 0%Q (Some 1%Q)] __init__)).2
  = None.
Proof. vm_compute. reflexivity. Qed.

(** The iterator that the first call created is registered after it, one
    request on; the second call draws the other two from it and leaves it
    at its end. *)
Example scenario_iterator_kept :
  (first_call ≫= λ '(self, _, _),
     it_pos <$> _request_iterators self !! 1%nat) = Some 1%nat.
Proof. vm_compute. reflexivity. Qed.

Example scenario_iterator_resumed :
  (second_call ≫= λ '(self, _, _),
     it_pos <$> _request_iterators self !! 1%nat) = Some 3%nat.
Proof. vm_compute. reflexivity. Qed.

(** A device that answers every request positively is scanned to the end
    in one call. *)
Example cooperative_scan :
  run_summary (execute 10 __init__ demo_cooperative 1%nat no_kwargs) =
    Some ([(1, Some 21); (2, Some 22); (3, Some 23)]%nat, None, true,
          IteratorFinished).
Proof. vm_compute. reflexivity. Qed.

(** With the initial blacklist the 5 results of code 0x11 are hidden; after
    the recomputation they are shown and the 95 of code 0x33 are hidden. *)
Example filtered_results_example :
  length (filtered_results demo_negative_store) = 95%nat ∧
  length (filtered_results
            (_prepare_negative_response_blacklist demo_negative_store))
    = 5%nat.
Proof. split; vm_compute; reflexivity. Qed.

(** The transition of a found edge sends the request of the result that
    revealed it. *)
Example transition_of_edge :
  get_transition_function
    (get_new_edge
       (set_results
          [mkScanResult 1%nat demo_session_request
             (Some (session_response 40 x03 1%Q)) 0%Q (Some 1%Q)] __init__)).1
    (1%nat, 3%nat)
  = Some (mkTransitionKwargs "1" demo_session_request).
Proof. vm_compute. reflexivity. Qed.

(** A transition succeeds on a positive response, fails on a negative
    response and on a caught exception, and lets any other exception
    through. *)
Example transition_outcomes :
  (transition_function demo_cooperative (Some demo_session_request)).2
    = inr true ∧
  (transition_function demo_answering (Some demo_session_request)).2
    = inr false ∧
  (transition_function demo_failing (Some demo_session_request)).2
    = inr false ∧
  (transition_function demo_crashing (Some demo_session_request)).2
    = inl OtherException.
Proof. by repeat split. Qed.
End examples.
